(** * Real-Time Memory Allocation Tracker: the allocation engine

    A shallow embedding of [memory_allocation_engine.py] (class
    [MemoryManager]) and the verification of its specification.

    Python integers are unbounded, hence [Z]; [//] and [%] are floor
    division and its remainder, which is what [Z.div] and [Z.modulo]
    compute.  Dictionaries with a fixed set of keys become records, the
    registry [allocated_processes] becomes a [gmap], and the methods
    become functions that take the engine state and return the result
    paired with the new state. *)

From stdpp Require Import gmap list sorting strings pretty.
From Stdlib Require Import ZArith QArith Lia.

Local Open Scope Z_scope.

(** ** Data model *)

Inductive AllocationMethod := PAGING | SEGMENTATION.

(** An entry of [self.memory]: the dict with keys
    'start', 'end', 'size', 'process_id'. *)
Record Block := mkBlock {
  blk_start : Z;
  blk_end : Z;
  blk_size : Z;
  blk_process_id : option Z
}.

(** An entry of [self.page_table]. *)
Record Frame := mkFrame {
  frame_id : Z;
  frm_process_id : option Z;
  start_address : Z;
  end_address : Z
}.

(** A value of [self.allocated_processes]; the key 'method' is the
    constructor. *)
Inductive ProcessInfo :=
| PagingInfo (size : Z) (frames : list Z)
| SegmentationInfo (size : Z) (seg_start seg_end : Z).

(** [self.stats].  The two quotients are Python floats; they are kept as
    exact rationals here and no result below depends on their rounding. *)
Record Stats := mkStats {
  total_memory : Z;
  used_memory : Z;
  free_memory : Z;
  used_percentage : Q;
  process_count : Z;
  page_faults : Z;
  external_fragmentation : Q;
  internal_fragmentation : Z
}.

(** An entry of [self.recent_events].  The timestamp is the reading of
    [time.time()], an input of every command. *)
Record Event := mkEvent {
  timestamp : Q;
  ev_process_id : Z;
  event_type : string;
  details : string
}.

Record MemoryManager := mkMemoryManager {
  memory_size : Z;
  page_size : Z;
  memory : list Block;
  page_table : list Frame;
  allocated_processes : gmap Z ProcessInfo;
  recent_events : list Event;
  stats : Stats
}.

#[global] Instance Block_eq_dec : EqDecision Block.
Proof. solve_decision. Defined.
#[global] Instance Frame_eq_dec : EqDecision Frame.
Proof. solve_decision. Defined.

(** ** Python helpers *)

(** [range(n)] *)
Definition range (n : Z) : list Z := Z.of_nat <$> seq 0 (Z.to_nat n).

(** [l[:n]], for a negative [n] too: all but the last [-n] elements. *)
Definition slice_to {A} (n : Z) (l : list A) : list A :=
  if n <? 0 then take (Z.to_nat (Z.of_nat (length l) + n)) l
  else take (Z.to_nat n) l.

(** [sum(...)] and [max(..., default=0)] *)
Definition sum_Z (l : list Z) : Z := foldr Z.add 0 l.
Definition max_default0 (l : list Z) : Z :=
  match l with
  | [] => 0
  | x :: r => foldl Z.max x r
  end.

Definition is_free (b : Block) : bool :=
  match blk_process_id b with None => true | Some _ => false end.
Definition frame_is_free (f : Frame) : bool :=
  match frm_process_id f with None => true | Some _ => false end.

(** ** Construction *)

Inductive PyError := ZeroDivisionError.

Definition initial_stats (memory_size : Z) : Stats :=
  {| total_memory := memory_size;
     used_memory := 0;
     free_memory := memory_size;
     used_percentage := 0%Q;
     process_count := 0;
     page_faults := 0;
     external_fragmentation := 0%Q;
     internal_fragmentation := 0 |}.

Definition initial_frame (page_size i : Z) : Frame :=
  {| frame_id := i;
     frm_process_id := None;
     start_address := i * page_size;
     end_address := (i + 1) * page_size - 1 |}.

(** [MemoryManager.__init__].  There is no check of the arguments; the
    only way it does not return is the division [memory_size // page_size]
    by zero. *)
Definition __init__ (memory_size page_size : Z) : PyError + MemoryManager :=
  if page_size =? 0 then inl ZeroDivisionError
  else inr
    {| memory_size := memory_size;
       page_size := page_size;
       memory := [ {| blk_start := 0; blk_end := memory_size - 1;
                      blk_size := memory_size; blk_process_id := None |} ];
       page_table := initial_frame page_size <$> range (memory_size / page_size);
       allocated_processes := ∅;
       recent_events := [];
       stats := initial_stats memory_size |}.

(** ** The event log *)

Definition _log_event (now : Q) (process_id : Z) (event_type details : string)
    (events : list Event) : list Event :=
  let events := events ++ [ mkEvent now process_id event_type details ] in
  if (10 <? Z.of_nat (length events)) then tail events else events.

Definition with_event (st : MemoryManager) (now : Q) (process_id : Z)
    (event_type details : string) : MemoryManager :=
  {| memory_size := memory_size st;
     page_size := page_size st;
     memory := memory st;
     page_table := page_table st;
     allocated_processes := allocated_processes st;
     recent_events := _log_event now process_id event_type details (recent_events st);
     stats := stats st |}.

(** ** The block view rebuilt from the frame table *)

(** [sorted(self.page_table, key=lambda x: x['frame_id'])]: a stable sort. *)
Fixpoint insert_by_frame_id (f : Frame) (l : list Frame) : list Frame :=
  match l with
  | [] => [f]
  | g :: r => if frame_id g <=? frame_id f then g :: insert_by_frame_id f r
              else f :: l
  end.

Definition sorted_by_frame_id (l : list Frame) : list Frame :=
  foldl (fun acc f => insert_by_frame_id f acc) [] l.

Definition block_of_frame (f : Frame) : Block :=
  {| blk_start := start_address f;
     blk_end := end_address f;
     blk_size := end_address f - start_address f + 1;
     blk_process_id := frm_process_id f |}.

Definition extend_block (b : Block) (end_addr : Z) : Block :=
  {| blk_start := blk_start b;
     blk_end := end_addr;
     blk_size := end_addr - blk_start b + 1;
     blk_process_id := blk_process_id b |}.

(** The loop of [_update_memory_from_page_table]; [current_block] is the
    loop variable and the result is what is appended to [self.memory]. *)
Fixpoint scan_frames (current_block : option Block) (fs : list Frame) : list Block :=
  match fs with
  | [] => match current_block with Some b => [b] | None => [] end
  | f :: r =>
      match current_block with
      | None => scan_frames (Some (block_of_frame f)) r
      | Some b =>
          if decide (blk_process_id b = frm_process_id f)
          then scan_frames (Some (extend_block b (end_address f))) r
          else b :: scan_frames (Some (block_of_frame f)) r
      end
  end.

Definition _update_memory_from_page_table (table : list Frame) : list Block :=
  scan_frames None (sorted_by_frame_id table).

(** ** Coalescing *)

Definition absorb (b nxt : Block) : Block :=
  {| blk_start := blk_start b;
     blk_end := blk_end nxt;
     blk_size := blk_size b + blk_size nxt;
     blk_process_id := blk_process_id b |}.

(** The loop of [_merge_free_blocks]: [cur] is [self.memory[i]], [rest] is
    what follows it; a merge keeps [i], otherwise [i] moves on. *)
Fixpoint merge_from (cur : Block) (rest : list Block) : list Block :=
  match rest with
  | [] => [cur]
  | nxt :: rest' =>
      if is_free cur && is_free nxt then merge_from (absorb cur nxt) rest'
      else cur :: merge_from nxt rest'
  end.

Definition _merge_free_blocks (mem : list Block) : list Block :=
  match mem with
  | [] => []
  | b :: rest => merge_from b rest
  end.

(** ** Statistics *)

Definition process_internal_fragmentation (page_size : Z) (info : ProcessInfo) : Z :=
  match info with
  | PagingInfo size frames => Z.of_nat (length frames) * page_size - size
  | SegmentationInfo _ _ _ => 0
  end.

Definition internal_fragmentation_of (page_size : Z) (procs : gmap Z ProcessInfo) : Z :=
  map_fold (fun _ info acc => acc + process_internal_fragmentation page_size info) 0 procs.

Definition _update_stats (memory_size page_size : Z) (mem : list Block)
    (procs : gmap Z ProcessInfo) : Stats :=
  let used := sum_Z (blk_size <$> filter (fun b => is_free b = false) mem) in
  let free := memory_size - used in
  let largest_free_block := max_default0 (blk_size <$> filter (fun b => is_free b = true) mem) in
  {| total_memory := memory_size;
     used_memory := used;
     free_memory := free;
     used_percentage :=
       if 0 <? memory_size
       then Qmult (Qdiv (inject_Z used) (inject_Z memory_size)) (inject_Z 100)
       else 0%Q;
     process_count := Z.of_nat (size procs);
     page_faults := 0;
     external_fragmentation :=
       if 0 <? free
       then Qminus 1%Q (Qdiv (inject_Z largest_free_block) (inject_Z free))
       else 0%Q;
     internal_fragmentation := internal_fragmentation_of page_size procs |}.

(** ** Paging *)

(** [for frame in allocated_frames: frame['process_id'] = process_id],
    where [allocated_frames] are the first [k] free entries of the table
    itself (the list holds the same dicts): the table is updated in place. *)
Fixpoint claim_frames (k : nat) (process_id : Z) (table : list Frame) : list Frame :=
  match table with
  | [] => []
  | f :: r =>
      match frm_process_id f, k with
      | None, S k' =>
          {| frame_id := frame_id f; frm_process_id := Some process_id;
             start_address := start_address f; end_address := end_address f |}
          :: claim_frames k' process_id r
      | _, _ => f :: claim_frames k process_id r
      end
  end.

Definition pages_needed_for (page_size size : Z) : Z :=
  (size + page_size - 1) / page_size.

Definition _allocate_process_paging (now : Q) (process_id size : Z)
    (st : MemoryManager) : bool * MemoryManager :=
  let pages_needed := pages_needed_for (page_size st) size in
  let free_frames := filter (fun f => frame_is_free f = true) (page_table st) in
  if Z.of_nat (length free_frames) <? pages_needed then
    (false, with_event st now process_id "Allocation Failed"
       ("Not enough free frames. Needed " +:+ pretty pages_needed
        +:+ ", available " +:+ pretty (Z.of_nat (length free_frames))))
  else
    let allocated_frames := slice_to pages_needed free_frames in
    let table := claim_frames (length allocated_frames) process_id (page_table st) in
    let mem := _update_memory_from_page_table table in
    let procs := <[process_id := PagingInfo size (frame_id <$> allocated_frames)]>
                   (allocated_processes st) in
    (true,
     {| memory_size := memory_size st;
        page_size := page_size st;
        memory := mem;
        page_table := table;
        allocated_processes := procs;
        recent_events :=
          _log_event now process_id "Allocation"
            ("Allocated " +:+ pretty pages_needed +:+ " pages for size " +:+ pretty size)
            (recent_events st);
        stats := _update_stats (memory_size st) (page_size st) mem procs |}).

(** ** Segmentation *)

Definition set_owner (b : Block) (o : option Z) : Block :=
  {| blk_start := blk_start b; blk_end := blk_end b;
     blk_size := blk_size b; blk_process_id := o |}.

(** The first-fit loop over [enumerate(self.memory)].  On a hit the result
    is the claimed block (as it is after the in-place update) and the new
    block list. *)
Fixpoint first_fit (process_id size : Z) (mem : list Block) : option (Block * list Block) :=
  match mem with
  | [] => None
  | block :: rest =>
      if is_free block && (size <=? blk_size block) then
        if blk_size block =? size then
          let block' := set_owner block (Some process_id) in
          Some (block', block' :: rest)
        else
          let new_block :=
            {| blk_start := blk_start block + size;
               blk_end := blk_end block;
               blk_size := blk_size block - size;
               blk_process_id := None |} in
          let block' :=
            {| blk_start := blk_start block;
               blk_end := blk_start block + size - 1;
               blk_size := size;
               blk_process_id := Some process_id |} in
          Some (block', block' :: new_block :: rest)
      else
        match first_fit process_id size rest with
        | Some (claimed, rest') => Some (claimed, block :: rest')
        | None => None
        end
  end.

(** [for frame in self.page_table: if start_page <= frame['frame_id'] <= end_page: ...] *)
Definition mark_frames (start_page end_page : Z) (o : option Z) (table : list Frame) : list Frame :=
  (fun f =>
     if (start_page <=? frame_id f) && (frame_id f <=? end_page)
     then {| frame_id := frame_id f; frm_process_id := o;
             start_address := start_address f; end_address := end_address f |}
     else f) <$> table.

Definition _allocate_process_segmentation (now : Q) (process_id size : Z)
    (st : MemoryManager) : bool * MemoryManager :=
  match first_fit process_id size (memory st) with
  | Some (block, mem) =>
      let start_page := blk_start block / page_size st in
      let end_page := blk_end block / page_size st in
      let table := mark_frames start_page end_page (Some process_id) (page_table st) in
      let procs := <[process_id := SegmentationInfo size (blk_start block) (blk_end block)]>
                     (allocated_processes st) in
      (true,
       {| memory_size := memory_size st;
          page_size := page_size st;
          memory := mem;
          page_table := table;
          allocated_processes := procs;
          recent_events :=
            _log_event now process_id "Allocation"
              ("Allocated segment of size " +:+ pretty size +:+ " at address "
               +:+ pretty (blk_start block))
              (recent_events st);
          stats := _update_stats (memory_size st) (page_size st) mem procs |})
  | None =>
      (false, with_event st now process_id "Allocation Failed"
         ("No suitable free block found for size " +:+ pretty size))
  end.

Definition allocate_process (now : Q) (process_id size : Z) (method : AllocationMethod)
    (st : MemoryManager) : bool * MemoryManager :=
  match method with
  | PAGING => _allocate_process_paging now process_id size st
  | SEGMENTATION => _allocate_process_segmentation now process_id size st
  end.

(** ** Deallocation *)

(** The nested loops of the paging branch: every frame whose id is in the
    recorded list is freed. *)
Definition release_frames (frames : list Z) (table : list Frame) : list Frame :=
  foldl (fun table fid =>
           (fun f =>
              if frame_id f =? fid
              then {| frame_id := frame_id f; frm_process_id := None;
                      start_address := start_address f; end_address := end_address f |}
              else f) <$> table)
        table frames.

(** The loop of the segmentation branch up to its [break]: the first block
    owned by [process_id] is freed; the result is that block and the new
    block list. *)
Fixpoint release_block (process_id : Z) (mem : list Block) : option Block * list Block :=
  match mem with
  | [] => (None, [])
  | block :: rest =>
      if decide (blk_process_id block = Some process_id) then
        (Some (set_owner block None), set_owner block None :: rest)
      else
        let '(found, rest') := release_block process_id rest in
        (found, block :: rest')
  end.

Definition deallocate_process (now : Q) (process_id : Z) (st : MemoryManager)
    : bool * MemoryManager :=
  match allocated_processes st !! process_id with
  | None => (false, st)
  | Some process_info =>
      let '(mem, table) :=
        match process_info with
        | PagingInfo _ frames =>
            let table := release_frames frames (page_table st) in
            (_update_memory_from_page_table table, table)
        | SegmentationInfo _ _ _ =>
            let '(found, mem) := release_block process_id (memory st) in
            let table :=
              match found with
              | Some block =>
                  mark_frames (blk_start block / page_size st)
                              (blk_end block / page_size st) None (page_table st)
              | None => page_table st
              end in
            (_merge_free_blocks mem, table)
        end in
      let procs := delete process_id (allocated_processes st) in
      (true,
       {| memory_size := memory_size st;
          page_size := page_size st;
          memory := mem;
          page_table := table;
          allocated_processes := procs;
          recent_events :=
            _log_event now process_id "Deallocation" "Process removed from memory"
              (recent_events st);
          stats := _update_stats (memory_size st) (page_size st) mem procs |})
  end.

(** ** Queries *)

(** The snapshots are shallow copies: the same sequence of entries. *)
Definition get_memory_snapshot (st : MemoryManager) : list Block := memory st.
Definition get_page_table_snapshot (st : MemoryManager) : list Frame := page_table st.
Definition get_memory_stats (st : MemoryManager) : Stats := stats st.

(** [self.recent_events[-5:]] *)
Definition get_recent_events (st : MemoryManager) : list Event :=
  drop (length (recent_events st) - 5) (recent_events st).

(** ** Reachable states *)

(** What the specification calls valid constructor arguments. *)
Definition valid_configuration (memory_size page_size : Z) : Prop :=
  0 < memory_size ∧ 0 < page_size ∧ memory_size mod page_size = 0.

(** The engine built by the constructor where it returns. *)
Definition engine (memory_size page_size : Z) : MemoryManager :=
  {| memory_size := memory_size;
     page_size := page_size;
     memory := [ mkBlock 0 (memory_size - 1) memory_size None ];
     page_table := initial_frame page_size <$> range (memory_size / page_size);
     allocated_processes := ∅;
     recent_events := [];
     stats := initial_stats memory_size |}.

(** States reached from a construction by commands that the caller has
    validated: positive sizes, and no pid that is already registered. *)
Inductive reachable (M ps : Z) : MemoryManager → Prop :=
| reachable_init st :
    __init__ M ps = inr st → reachable M ps st
| reachable_allocate st now process_id size method :
    reachable M ps st →
    0 < size →
    allocated_processes st !! process_id = None →
    reachable M ps (allocate_process now process_id size method st).2
| reachable_deallocate st now process_id :
    reachable M ps st →
    reachable M ps (deallocate_process now process_id st).2.

(** The same, with segmentation as the only method. *)
Inductive seg_reachable (M ps : Z) : MemoryManager → Prop :=
| seg_reachable_init st :
    __init__ M ps = inr st → seg_reachable M ps st
| seg_reachable_allocate st now process_id size :
    seg_reachable M ps st →
    0 < size →
    allocated_processes st !! process_id = None →
    seg_reachable M ps (allocate_process now process_id size SEGMENTATION st).2
| seg_reachable_deallocate st now process_id :
    seg_reachable M ps st →
    seg_reachable M ps (deallocate_process now process_id st).2.

(** ** Properties named by the specification *)

(** One event is added to the bounded log: appended, and the oldest entry
    evicted when the log would exceed ten entries. *)
Definition event_appended (e : Event) (old new : list Event) : Prop :=
  new = if decide (length old < 10)%nat then old ++ [e] else tail (old ++ [e]).

(** Block, frame table, registry and statistics are the same in both states. *)
Definition same_allocation_state (st st' : MemoryManager) : Prop :=
  memory st' = memory st ∧
  page_table st' = page_table st ∧
  allocated_processes st' = allocated_processes st ∧
  stats st' = stats st ∧
  memory_size st' = memory_size st ∧
  page_size st' = page_size st.

(** The block view of the specification, as it words it. *)
Definition ordered_by_address (blocks : list Block) : Prop :=
  ∀ i j b b', blocks !! i = Some b → blocks !! j = Some b' →
    (i < j)%nat → blk_start b < blk_start b'.

Definition gapless (M : Z) (blocks : list Block) : Prop :=
  (∃ b, head blocks = Some b ∧ blk_start b = 0) ∧
  (∃ b, last blocks = Some b ∧ blk_end b = M - 1) ∧
  (∀ i b b', blocks !! i = Some b → blocks !! S i = Some b' →
     blk_end b + 1 = blk_start b').

Definition covers_exactly (M : Z) (blocks : list Block) : Prop :=
  ∀ a, 0 ≤ a < M ↔ ∃ b, b ∈ blocks ∧ blk_start b ≤ a ≤ blk_end b.

Definition no_adjacent_same_owner (blocks : list Block) : Prop :=
  ∀ i b b', blocks !! i = Some b → blocks !! S i = Some b' →
    blk_process_id b ≠ blk_process_id b'.

(** [size / page_size] rounded up. *)
Definition ceil_div (size page_size : Z) : Z :=
  size / page_size + (if size mod page_size =? 0 then 0 else 1).

(** The frame overlaps the block: its id lies between the pages of the
    block's first and last address. *)
Definition overlaps (page_size : Z) (b : Block) (f : Frame) : Prop :=
  blk_start b / page_size ≤ frame_id f ≤ blk_end b / page_size.

Definition with_owner (f : Frame) (o : option Z) : Frame :=
  {| frame_id := frame_id f; frm_process_id := o;
     start_address := start_address f; end_address := end_address f |}.

(** A block is a candidate of the first-fit search. *)
Definition fits (size : Z) (b : Block) : Prop :=
  blk_process_id b = None ∧ size ≤ blk_size b.

#[global] Instance overlaps_dec page_size b f : Decision (overlaps page_size b f).
Proof. unfold overlaps. apply _. Defined.

#[global] Instance fits_dec size b : Decision (fits size b).
Proof. unfold fits. apply _. Defined.

(** The ids of the free frames, in table order. *)
Definition free_frame_ids (table : list Frame) : list Z :=
  frame_id <$> filter (fun f => frame_is_free f = true) table.

(** The two blocks a split leaves. *)
Definition claimed_prefix (b : Block) (process_id size : Z) : Block :=
  mkBlock (blk_start b) (blk_start b + size - 1) size (Some process_id).
Definition free_suffix (b : Block) (size : Z) : Block :=
  mkBlock (blk_start b + size) (blk_end b) (blk_size b - size) None.

(** The owner of the frames whose id satisfies [P] is set to [o]. *)
Definition set_owner_where (P : Z → Prop) `{!∀ x, Decision (P x)}
    (o : option Z) (table : list Frame) : list Frame :=
  (fun f => if decide (P (frame_id f)) then with_owner f o else f) <$> table.

(** In the table [t], block [b] is a maximal run of frames [i..j] with one
    owner, cut where the owner of the frame before it differs. *)
Definition is_run (ps : Z) (t : list Frame) (b : Block) : Prop :=
  ∃ i j, i ≤ j ∧
    blk_start b = i * ps ∧ blk_end b = (j + 1) * ps - 1 ∧
    (∃ f, f ∈ t ∧ frame_id f = i) ∧
    (∀ f, f ∈ t → i ≤ frame_id f ≤ j → frm_process_id f = blk_process_id b) ∧
    (∀ f, f ∈ t → frame_id f = i - 1 → frm_process_id f ≠ blk_process_id b).

(** During the scan: [cur] is the run of frames [i..k-1], still open to
    the right. *)
Definition open_run (ps : Z) (t : list Frame) (cur : Block) (i k : Z) : Prop :=
  i < k ∧
  blk_start cur = i * ps ∧ blk_end cur = k * ps - 1 ∧
  blk_size cur = blk_end cur - blk_start cur + 1 ∧
  (∃ f, f ∈ t ∧ frame_id f = i) ∧
  (∀ f, f ∈ t → i ≤ frame_id f < k → frm_process_id f = blk_process_id cur) ∧
  (∀ f, f ∈ t → frame_id f = i - 1 → frm_process_id f ≠ blk_process_id cur).

(** Every recorded frame id is the id of a frame of the table. *)
Definition recorded_frames_exist (st : MemoryManager) : Prop :=
  ∀ p size frames x,
    allocated_processes st !! p = Some (PagingInfo size frames) →
    x ∈ frames → x ∈ frame_id <$> page_table st.

(** Every registered process is a segment, recorded with the bounds of a
    block it owns. *)
Definition segments_recorded (st : MemoryManager) : Prop :=
  ∀ p info, allocated_processes st !! p = Some info →
    ∃ size b, info = SegmentationInfo size (blk_start b) (blk_end b) ∧
      b ∈ memory st ∧ blk_process_id b = Some p.

(** ** The invariant of reachable states *)

(** The blocks of [l] follow each other from address [s] up to, and not
    including, address [t]; sizes are consistent and positive. *)
Fixpoint chain (s : Z) (l : list Block) (t : Z) : Prop :=
  match l with
  | [] => s = t
  | b :: r =>
      blk_start b = s ∧ blk_size b = blk_end b - blk_start b + 1 ∧
      0 < blk_size b ∧ chain (blk_end b + 1) r t
  end.

(** No block of [l] has the owner of its predecessor; [o] is the owner of
    the block before the head. *)
Fixpoint distinct_after (o : option Z) (l : list Block) : Prop :=
  match l with
  | [] => True
  | b :: r => o ≠ blk_process_id b ∧ distinct_after (blk_process_id b) r
  end.

Definition distinct_neighbours (l : list Block) : Prop :=
  match l with
  | [] => True
  | b :: r => distinct_after (blk_process_id b) r
  end.

(** The same, but two neighbours may both be free. *)
Fixpoint owned_distinct_after (o : option Z) (l : list Block) : Prop :=
  match l with
  | [] => True
  | b :: r =>
      (o = blk_process_id b → o = None) ∧ owned_distinct_after (blk_process_id b) r
  end.

(** The frames of [l] are numbered [k], [k+1], ... and frame [i] spans the
    addresses of page [i]. *)
Fixpoint frames_from (ps k : Z) (l : list Frame) : Prop :=
  match l with
  | [] => True
  | f :: r =>
      frame_id f = k ∧ start_address f = k * ps ∧
      end_address f = (k + 1) * ps - 1 ∧ frames_from ps (k + 1) r
  end.

Record Inv (M ps : Z) (st : MemoryManager) : Prop := {
  inv_memory_size : memory_size st = M;
  inv_page_size : page_size st = ps;
  inv_frames : frames_from ps 0 (page_table st);
  inv_frames_length : Z.of_nat (length (page_table st)) * ps = M;
  inv_chain : chain 0 (memory st) M;
  inv_distinct : distinct_neighbours (memory st);
  (* owners are registered *)
  inv_block_owner : ∀ b p, b ∈ memory st → blk_process_id b = Some p →
    is_Some (allocated_processes st !! p);
  inv_frame_owner : ∀ f p, f ∈ page_table st → frm_process_id f = Some p →
    is_Some (allocated_processes st !! p);
  (* paging: the recorded frames are the owned frames, and the blocks
     over them are the process's *)
  inv_paging_frames : ∀ p size frames f,
    allocated_processes st !! p = Some (PagingInfo size frames) →
    f ∈ page_table st → (frame_id f ∈ frames ↔ frm_process_id f = Some p);
  inv_paging_blocks : ∀ p size frames f b,
    allocated_processes st !! p = Some (PagingInfo size frames) →
    f ∈ page_table st → frm_process_id f = Some p →
    b ∈ memory st → overlaps ps b f → blk_process_id b = Some p;
  (* segmentation: one block at most, the owned frames overlap it and are
     consecutive *)
  inv_seg_unique : ∀ p size s e b1 b2,
    allocated_processes st !! p = Some (SegmentationInfo size s e) →
    b1 ∈ memory st → b2 ∈ memory st →
    blk_process_id b1 = Some p → blk_process_id b2 = Some p →
    blk_start b1 = blk_start b2;
  inv_seg_frames : ∀ p size s e f,
    allocated_processes st !! p = Some (SegmentationInfo size s e) →
    f ∈ page_table st → frm_process_id f = Some p →
    ∃ b, b ∈ memory st ∧ blk_process_id b = Some p ∧ overlaps ps b f;
  inv_seg_interval : ∀ p size s e f1 f2 f3,
    allocated_processes st !! p = Some (SegmentationInfo size s e) →
    f1 ∈ page_table st → f2 ∈ page_table st → f3 ∈ page_table st →
    frm_process_id f1 = Some p → frm_process_id f3 = Some p →
    frame_id f1 ≤ frame_id f2 ≤ frame_id f3 →
    frm_process_id f2 = Some p
}.

(** * Verification *)

(** ** Construction *)

Lemma init_engine M ps : ps ≠ 0 → __init__ M ps = inr (engine M ps).
Proof.
  intros Hps. unfold __init__, engine.
  destruct (ps =? 0) eqn:E; [lia | reflexivity].
Qed.

Lemma length_range n : 0 ≤ n → Z.of_nat (length (range n)) = n.
Proof. intros Hn. unfold range. rewrite length_fmap, length_seq. lia. Qed.

Lemma elem_of_range n i : i ∈ range n ↔ 0 ≤ i < n.
Proof.
  unfold range. rewrite list_elem_of_fmap. split.
  - intros (k & -> & Hk). apply elem_of_seq in Hk. lia.
  - intros Hi. exists (Z.to_nat i). split; [lia|]. apply elem_of_seq. lia.
Qed.

(** C9, against the claim: 100 is not a multiple of 30 and -16 is not
    positive, yet both constructions return an engine. *)
Lemma init_accepts_invalid_configuration :
  ¬ valid_configuration 100 30 ∧ ¬ valid_configuration (-16) 16 ∧
  (∃ st, __init__ 100 30 = inr st ∧ length (page_table st) = 3%nat) ∧
  (∃ st, __init__ (-16) 16 = inr st ∧ page_table st = []
         ∧ memory st = [mkBlock 0 (-17) (-16) None]).
Proof.
  split; [|split; [|split]].
  - unfold valid_configuration. intros (_ & _ & H). vm_compute in H. discriminate.
  - unfold valid_configuration. lia.
  - eexists. split; [reflexivity | reflexivity].
  - eexists. split; [reflexivity | split; reflexivity].
Qed.

(** C9, as the code has it: the constructor checks nothing.  It fails only
    by dividing by a zero page size and returns an engine for every other
    pair of arguments; the engine has one free block over the whole space,
    an empty registry and log, and, for a valid configuration,
    [memory_size / page_size] frames, all free, frame [i] spanning page [i]. *)
Theorem init_spec M ps :
  (ps = 0 → __init__ M ps = inl ZeroDivisionError) ∧
  (ps ≠ 0 → ∃ st, __init__ M ps = inr st ∧
     memory_size st = M ∧ page_size st = ps ∧
     memory st = [mkBlock 0 (M - 1) M None] ∧
     allocated_processes st = ∅ ∧ recent_events st = [] ∧
     (valid_configuration M ps →
        Z.of_nat (length (page_table st)) = M / ps ∧
        (∀ f, f ∈ page_table st →
           frm_process_id f = None ∧ 0 ≤ frame_id f < M / ps ∧
           start_address f = frame_id f * ps ∧
           end_address f = (frame_id f + 1) * ps - 1) ∧
        (∀ i, 0 ≤ i < M / ps → ∃ f, f ∈ page_table st ∧ frame_id f = i))).
Proof.
  split.
  - intros ->. reflexivity.
  - intros Hps. exists (engine M ps). split; [by apply init_engine|].
    repeat (split; [reflexivity|]).
    intros (HM & Hp & Hmod). simpl.
    assert (0 ≤ M / ps) by (apply Z.div_pos; lia).
    generalize dependent (M / ps). intros q Hq.
    split; [|split].
    + rewrite length_fmap. by apply length_range.
    + intros f Hf. apply list_elem_of_fmap in Hf as (i & -> & Hi).
      apply elem_of_range in Hi. simpl. repeat split; lia.
    + intros i Hi. exists (initial_frame ps i). split; [|reflexivity].
      apply list_elem_of_fmap. exists i. split; [reflexivity|].
      by apply elem_of_range.
Qed.

Lemma init_spec_witness :
  ∃ st, __init__ 256 16 = inr st ∧ length (page_table st) = 16%nat.
Proof.
  destruct (init_spec 256 16) as [_ H].
  destruct H as (st & Hst & _ & _ & _ & _ & _ & Hv); [lia|].
  exists st. split; [exact Hst|].
  destruct Hv as (Hl & _).
  - unfold valid_configuration. split; [lia|]. split; [lia|]. reflexivity.
  - change (256 / 16) with 16 in Hl. lia.
Defined.

(** ** The event log *)

Lemma log_event_appended now pid ty d old :
  event_appended (mkEvent now pid ty d) old (_log_event now pid ty d old).
Proof.
  unfold event_appended, _log_event.
  rewrite length_app. simpl length.
  case_decide; destruct (Z.ltb_spec 10 (Z.of_nat (length old + 1)));
    try reflexivity; lia.
Qed.

Lemma event_appended_last e old new :
  event_appended e old new → last new = Some e.
Proof.
  unfold event_appended. intros ->. case_decide.
  - apply last_snoc.
  - destruct old as [|x old]; [simpl in *; lia|]. simpl.
    apply last_snoc.
Qed.

Lemma event_appended_length e old new :
  event_appended e old new → (length old < 10)%nat →
  length new = S (length old).
Proof.
  unfold event_appended. intros -> Hl. rewrite decide_True by done.
  rewrite length_app. simpl. lia.
Qed.

Lemma with_event_same st now pid ty d :
  same_allocation_state st (with_event st now pid ty d).
Proof. repeat split. Qed.

(** ** Failing allocations *)

Lemma paging_failure now pid size st st' :
  _allocate_process_paging now pid size st = (false, st') →
  Z.of_nat (length (filter (fun f => frame_is_free f = true) (page_table st)))
    < pages_needed_for (page_size st) size ∧
  st' = with_event st now pid "Allocation Failed"
       ("Not enough free frames. Needed "
        +:+ pretty (pages_needed_for (page_size st) size)
        +:+ ", available "
        +:+ pretty (Z.of_nat (length (filter (fun f => frame_is_free f = true)
                                        (page_table st))))).
Proof.
  unfold _allocate_process_paging.
  destruct (_ <? _) eqn:E; intros H; [|discriminate].
  injection H as <-. split; [lia | reflexivity].
Qed.


(** ** One event per command *)

(** C6, against the claim: deallocating a pid that is not registered
    returns failure and the state as it was; nothing is logged. *)
Lemma deallocate_unknown_logs_nothing :
  deallocate_process 0%Q 7 (engine 256 16) = (false, engine 256 16) ∧
  ¬ ∃ e, event_appended e (recent_events (engine 256 16))
           (recent_events (deallocate_process 0%Q 7 (engine 256 16)).2).
Proof.
  split; [reflexivity|].
  intros [e He]. apply event_appended_last in He. discriminate.
Qed.

(** C6, as the code has it: every [allocate_process], failed or not, and
    every [deallocate_process] of a registered pid appends exactly one
    event; [deallocate_process] of an unregistered pid fails, appends
    nothing and returns the state unchanged. *)
Theorem one_event_per_command now pid st :
  (∀ size method, ∃ e, ev_process_id e = pid ∧
     event_appended e (recent_events st)
       (recent_events (allocate_process now pid size method st).2)) ∧
  (is_Some (allocated_processes st !! pid) →
     (deallocate_process now pid st).1 = true ∧
     ∃ e, ev_process_id e = pid ∧ event_type e = "Deallocation" ∧
       event_appended e (recent_events st)
         (recent_events (deallocate_process now pid st).2)) ∧
  (allocated_processes st !! pid = None →
     deallocate_process now pid st = (false, st)).
Proof.
  split; [|split].
  - intros size [|]; simpl.
    + unfold _allocate_process_paging. destruct (_ <? _); simpl;
        eexists (mkEvent _ _ _ _); (split; [reflexivity|]);
        apply log_event_appended.
    + unfold _allocate_process_segmentation.
      destruct (first_fit _ _ _) as [[c mem]|]; simpl;
        eexists (mkEvent _ _ _ _); (split; [reflexivity|]);
        apply log_event_appended.
  - intros [info Hinfo]. unfold deallocate_process. rewrite Hinfo.
    destruct info as [sz fl|sz s e].
    + simpl. split; [reflexivity|]. eexists (mkEvent _ _ _ _).
      repeat split. apply log_event_appended.
    + destruct (release_block pid (memory st)) as [found mem] eqn:E.
      simpl. split; [reflexivity|]. eexists (mkEvent _ _ _ _).
      repeat split. apply log_event_appended.
  - intros Hnone. unfold deallocate_process. by rewrite Hnone.
Qed.

Lemma one_event_per_command_witness :
  deallocate_process 0%Q 7 (engine 256 16) = (false, engine 256 16).
Proof.
  refine (proj2 (proj2 (one_event_per_command 0%Q 7 (engine 256 16))) _).
  reflexivity.
Defined.

(** ** The frame table *)

Lemma frames_from_ge ps k l f : frames_from ps k l → f ∈ l → k ≤ frame_id f.
Proof.
  revert k. induction l as [|g r IH]; intros k H Hf; [by inversion Hf|].
  destruct H as (Hid & _ & _ & Hr).
  apply elem_of_cons in Hf as [->|Hf]; [lia|].
  specialize (IH _ Hr Hf). lia.
Qed.

Lemma free_frame_ids_cons f r :
  free_frame_ids (f :: r) =
  match frm_process_id f with
  | None => frame_id f :: free_frame_ids r
  | Some _ => free_frame_ids r
  end.
Proof.
  unfold free_frame_ids. rewrite filter_cons.
  destruct f as [i [o|] s e]; reflexivity.
Qed.

Lemma free_frame_ids_ge ps k l x :
  frames_from ps k l → x ∈ free_frame_ids l → k ≤ x.
Proof.
  intros Hl Hx. unfold free_frame_ids in Hx.
  apply list_elem_of_fmap in Hx as (f & -> & Hf).
  apply list_elem_of_filter in Hf as [_ Hf]. by eapply frames_from_ge.
Qed.

Lemma free_frame_ids_sorted ps k l :
  frames_from ps k l → StronglySorted Z.lt (free_frame_ids l).
Proof.
  revert k. induction l as [|f r IH]; intros k H; [constructor|].
  destruct H as (Hid & _ & _ & Hr).
  rewrite free_frame_ids_cons. destruct (frm_process_id f); [by eapply IH|].
  constructor; [by eapply IH|].
  apply Forall_forall. intros x Hx.
  pose proof (free_frame_ids_ge _ _ _ _ Hr Hx). lia.
Qed.

Lemma claim_frames_0 pid l : claim_frames 0 pid l = l.
Proof.
  induction l as [|f r IH]; [reflexivity|]. simpl.
  destruct (frm_process_id f); by rewrite IH.
Qed.

(** The in-place update of the first [n] free frames, frame by frame:
    a frame is claimed when its id is among the first [n] free ids. *)
Lemma claim_frames_spec ps k n pid l :
  frames_from ps k l →
  claim_frames n pid l =
  (fun f => if decide (frame_id f ∈ take n (free_frame_ids l))
            then with_owner f (Some pid) else f) <$> l.
Proof.
  revert k n. induction l as [|f r IH]; intros k n H; [reflexivity|].
  destruct H as (Hid & _ & _ & Hr).
  rewrite free_frame_ids_cons, fmap_cons. cbn [claim_frames].
  assert (Hfresh : ∀ m, frame_id f ∉ take m (free_frame_ids r)).
  { intros m Hin. apply elem_of_take in Hin as (i & Hi & _).
    apply list_elem_of_lookup_2 in Hi.
    pose proof (free_frame_ids_ge _ _ _ _ Hr Hi). lia. }
  destruct (frm_process_id f) as [o|] eqn:Ho.
  - rewrite decide_False by apply Hfresh. f_equal. by eapply IH.
  - destruct n as [|n']; cbn [take].
    + rewrite decide_False by (by intros ?%elem_of_nil).
      f_equal. exact (IH _ 0%nat Hr).
    + rewrite decide_True by apply list_elem_of_here.
      f_equal. rewrite (IH _ n' Hr). apply list_fmap_ext.
      intros i g Hg. apply list_elem_of_lookup_2 in Hg.
      pose proof (frames_from_ge _ _ _ _ Hr Hg).
      destruct (decide (frame_id g ∈ take n' (free_frame_ids r))) as [Hi|Hi].
      * rewrite decide_True; [done | by apply list_elem_of_further].
      * rewrite decide_False; [done|].
        intros [Heq|?]%elem_of_cons; [lia | done].
Qed.

(** ** Paging allocation *)

Lemma pages_needed_ceil size ps :
  0 < ps → pages_needed_for ps size = ceil_div size ps.
Proof.
  intros Hps. unfold pages_needed_for, ceil_div.
  pose proof (Z.div_mod size ps ltac:(lia)) as Hdm.
  pose proof (Z.mod_pos_bound size ps Hps) as Hb.
  destruct (Z.eqb_spec (size mod ps) 0) as [E|E].
  - symmetry. apply Z.div_unique with (r := ps - 1); lia.
  - symmetry. apply Z.div_unique with (r := size mod ps - 1); lia.
Qed.

Lemma ceil_div_bounds size ps :
  0 < ps → (ceil_div size ps - 1) * ps < size ≤ ceil_div size ps * ps.
Proof.
  intros Hps. unfold ceil_div.
  pose proof (Z.div_mod size ps ltac:(lia)) as Hdm.
  pose proof (Z.mod_pos_bound size ps Hps) as Hb.
  destruct (Z.eqb_spec (size mod ps) 0) as [E|E]; nia.
Qed.

Lemma slice_to_take {A} pn (l : list A) :
  0 ≤ pn → slice_to pn l = take (Z.to_nat pn) l.
Proof.
  intros Hpn. unfold slice_to. destruct (Z.ltb_spec pn 0); [lia | reflexivity].
Qed.

Lemma slice_to_is_take {A} pn (l : list A) :
  ∃ j, slice_to pn l = take j l.
Proof. unfold slice_to. destruct (pn <? 0); eauto. Qed.

Lemma take_length_take {A B} j (l : list A) (l' : list B) :
  length l = length l' → take (length (take j l)) l' = take j l'.
Proof.
  intros Hl. rewrite length_take.
  destruct (decide (j ≤ length l)%nat).
  - by rewrite Nat.min_l.
  - rewrite Nat.min_r by lia. rewrite !take_ge; [done | lia..].
Qed.

(** The table after a successful paging allocation, whatever the sign of
    the page count: the frames claimed are those whose ids are recorded. *)
Lemma paging_success now pid size st st' :
  frames_from (page_size st) 0 (page_table st) →
  _allocate_process_paging now pid size st = (true, st') →
  ∃ chosen,
    chosen = frame_id <$> slice_to (pages_needed_for (page_size st) size)
                            (filter (fun f => frame_is_free f = true) (page_table st)) ∧
    (∃ j, chosen = take j (free_frame_ids (page_table st))) ∧
    page_table st' =
      (fun f => if decide (frame_id f ∈ chosen)
                then with_owner f (Some pid) else f) <$> page_table st ∧
    allocated_processes st' = <[pid := PagingInfo size chosen]> (allocated_processes st) ∧
    memory st' = _update_memory_from_page_table (page_table st') ∧
    memory_size st' = memory_size st ∧ page_size st' = page_size st ∧
    stats st' = _update_stats (memory_size st) (page_size st) (memory st')
                  (allocated_processes st').
Proof.
  intros Hwf. unfold _allocate_process_paging.
  destruct (_ <? _) eqn:E; intros H; [discriminate|].
  injection H as <-. simpl. eexists. split; [reflexivity|].
  destruct (slice_to_is_take (pages_needed_for (page_size st) size)
              (filter (fun f => frame_is_free f = true) (page_table st)))
    as [j Hj].
  rewrite Hj. split; [|split].
  - exists j. unfold free_frame_ids. by rewrite fmap_take.
  - rewrite (claim_frames_spec _ _ _ _ _ Hwf).
    rewrite fmap_take. unfold free_frame_ids.
    rewrite take_length_take by (by rewrite length_fmap). reflexivity.
  - repeat split.
Qed.

(** C4: a paging allocation of a positive size needs
    [ceil(size / page_size)] pages.  With fewer free frames it fails, changes
    nothing but the log and reports both numbers; otherwise it succeeds,
    and the frames it claims are exactly the first [pages_needed] free
    frames in increasing frame-id order, contiguous or not, which it
    records for the process. *)
Theorem paging_allocate_spec now pid size st :
  0 < size → 0 < page_size st →
  frames_from (page_size st) 0 (page_table st) →
  let pages_needed := pages_needed_for (page_size st) size in
  let free_ids := free_frame_ids (page_table st) in
  pages_needed = ceil_div size (page_size st) ∧
  (Z.of_nat (length free_ids) < pages_needed →
     ∃ st', allocate_process now pid size PAGING st = (false, st') ∧
       same_allocation_state st st' ∧
       ∃ e, event_appended e (recent_events st) (recent_events st') ∧
         event_type e = "Allocation Failed" ∧
         details e = "Not enough free frames. Needed " +:+ pretty pages_needed
                     +:+ ", available " +:+ pretty (Z.of_nat (length free_ids))) ∧
  (pages_needed ≤ Z.of_nat (length free_ids) →
     ∃ st', allocate_process now pid size PAGING st = (true, st') ∧
       let chosen := take (Z.to_nat pages_needed) free_ids in
       Z.of_nat (length chosen) = pages_needed ∧
       (∀ x y, x ∈ chosen → y ∈ free_ids → y ∉ chosen → x < y) ∧
       page_table st' =
         (fun f => if decide (frame_id f ∈ chosen)
                   then with_owner f (Some pid) else f) <$> page_table st ∧
       allocated_processes st' =
         <[pid := PagingInfo size chosen]> (allocated_processes st)).
Proof.
  intros Hsize Hps Hwf pages_needed free_ids.
  assert (Hlen : length free_ids =
                 length (filter (fun f => frame_is_free f = true) (page_table st)))
    by (unfold free_ids, free_frame_ids; by rewrite length_fmap).
  assert (Hpos : 0 < pages_needed).
  { unfold pages_needed. rewrite pages_needed_ceil by done.
    pose proof (ceil_div_bounds size _ Hps). nia. }
  split; [by apply pages_needed_ceil|]. split.
  - intros Hshort.
    destruct (allocate_process now pid size PAGING st) as [[|] st'] eqn:E.
    + exfalso. simpl in E. unfold _allocate_process_paging in E.
      fold pages_needed in E. rewrite <- Hlen in E.
      destruct (Z.ltb_spec (Z.of_nat (length free_ids)) pages_needed);
        [discriminate | lia].
    + exists st'. split; [reflexivity|].
      simpl in E. apply paging_failure in E as [_ ->].
      split; [apply with_event_same|].
      eexists (mkEvent _ _ _ _). split; [apply log_event_appended|].
      split; [reflexivity|]. simpl. fold pages_needed. by rewrite <- Hlen.
  - intros Hroom.
    destruct (allocate_process now pid size PAGING st) as [[|] st'] eqn:E.
    + exists st'. split; [reflexivity|].
      simpl in E. apply paging_success in E as (chosen & Hc & _ & Ht & Hr & _);
        [|done].
      fold pages_needed in Hc. rewrite slice_to_take in Hc by lia.
      rewrite fmap_take in Hc. fold (free_frame_ids (page_table st)) in Hc.
      fold free_ids in Hc. subst chosen. cbv zeta.
      split; [rewrite length_take; lia|]. split; [|by split].
      intros x y Hx Hy Hny.
      pose proof (free_frame_ids_sorted _ _ _ Hwf) as Hs.
      fold free_ids in Hs.
      rewrite <- (take_drop (Z.to_nat pages_needed) free_ids) in Hs, Hy.
      apply elem_of_app in Hy as [Hy|Hy]; [done|].
      by eapply StronglySorted_app_1_elem_of.
    + exfalso. simpl in E. apply paging_failure in E as [Hlt _].
      fold pages_needed in Hlt. rewrite <- Hlen in Hlt. lia.
Qed.

Lemma paging_allocate_spec_witness :
  ∃ st', allocate_process 0%Q 2 40 PAGING (engine 256 16) = (true, st') ∧
    allocated_processes st' !! 2 = Some (PagingInfo 40 [0; 1; 2]).
Proof.
  assert (Hwf : frames_from (page_size (engine 256 16)) 0
                  (page_table (engine 256 16))).
  { vm_compute. repeat split. }
  destruct (paging_allocate_spec 0%Q 2 40 (engine 256 16)
              ltac:(lia) ltac:(simpl; lia) Hwf) as (_ & _ & H).
  destruct H as (st' & Hst & _ & _ & _ & Hreg).
  { vm_compute. discriminate. }
  exists st'. split; [exact Hst|].
  rewrite Hreg. rewrite lookup_insert_eq. reflexivity.
Defined.

(** ** Segmentation allocation *)

Lemma fits_test size b :
  is_free b && (size <=? blk_size b) = true ↔ fits size b.
Proof.
  unfold fits, is_free. rewrite andb_true_iff, Z.leb_le.
  destruct (blk_process_id b); split; intros [? ?]; done.
Qed.

Lemma first_fit_none pid size mem :
  Forall (fun b => ¬ fits size b) mem → first_fit pid size mem = None.
Proof.
  induction 1 as [|b r Hb _ IH]; [reflexivity|]. simpl.
  destruct (is_free b && (size <=? blk_size b)) eqn:E.
  - by apply fits_test in E.
  - by rewrite IH.
Qed.

Lemma first_fit_hit pid size pre b post :
  Forall (fun b => ¬ fits size b) pre → fits size b →
  first_fit pid size (pre ++ b :: post) =
  if blk_size b =? size
  then Some (set_owner b (Some pid), pre ++ set_owner b (Some pid) :: post)
  else Some (claimed_prefix b pid size,
             pre ++ claimed_prefix b pid size :: free_suffix b size :: post).
Proof.
  intros Hpre Hb. induction Hpre as [|a r Ha _ IH]; simpl.
  - apply fits_test in Hb. rewrite Hb. by destruct (blk_size b =? size).
  - destruct (is_free a && (size <=? blk_size a)) eqn:E;
      [by apply fits_test in E|].
    rewrite IH. by destruct (blk_size b =? size).
Qed.

(** The search either finds nothing or stops at the first candidate. *)
Lemma first_fit_cases size mem :
  Forall (fun b => ¬ fits size b) mem ∨
  ∃ pre b post, mem = pre ++ b :: post ∧
    Forall (fun b => ¬ fits size b) pre ∧ fits size b.
Proof.
  induction mem as [|a r IH]; [by left|].
  destruct (decide (fits size a)) as [Ha|Ha].
  - right. by exists [], a, r.
  - destruct IH as [IH|(pre & b & post & -> & Hpre & Hb)].
    + left. by constructor.
    + right. exists (a :: pre), b, post.
      split; [reflexivity|]. split; [by constructor | done].
Qed.

(** C5: segmentation is first-fit.  Without a free block of at least the
    requested size the call fails and changes nothing but the log.
    Otherwise the first such block in address order is taken: whole when
    its size is the requested one, and else split in exactly two, the
    claimed prefix of the requested size at the original start followed by
    the free remainder up to the original end. *)
Theorem segmentation_allocate_spec now pid size st :
  0 < size →
  (Forall (fun b => ¬ fits size b) (memory st) →
     ∃ st', allocate_process now pid size SEGMENTATION st = (false, st') ∧
       same_allocation_state st st' ∧
       ∃ e, event_appended e (recent_events st) (recent_events st')) ∧
  (∀ pre b post,
     memory st = pre ++ b :: post →
     Forall (fun b => ¬ fits size b) pre → fits size b →
     ∃ st', allocate_process now pid size SEGMENTATION st = (true, st') ∧
       (blk_size b = size →
          memory st' = pre ++ set_owner b (Some pid) :: post) ∧
       (blk_size b ≠ size →
          memory st' = pre ++ mkBlock (blk_start b) (blk_start b + size - 1)
                                  size (Some pid)
                           :: mkBlock (blk_start b + size) (blk_end b)
                                  (blk_size b - size) None
                           :: post)).
Proof.
  intros _. split.
  - intros Hnone. simpl. unfold _allocate_process_segmentation.
    rewrite first_fit_none by done. eexists. split; [reflexivity|].
    split; [apply with_event_same|].
    eexists (mkEvent _ _ _ _). apply log_event_appended.
  - intros pre b post Hmem Hpre Hb. simpl.
    unfold _allocate_process_segmentation.
    rewrite Hmem, (first_fit_hit pid size pre b post Hpre Hb).
    destruct (Z.eqb_spec (blk_size b) size) as [E|E];
      (eexists; split; [reflexivity|]); simpl; split; intros;
      first [reflexivity | contradiction].
Qed.

Lemma segmentation_allocate_spec_witness :
  ∃ st', allocate_process 0%Q 1 30 SEGMENTATION (engine 100 10) = (true, st') ∧
    memory st' = [mkBlock 0 29 30 (Some 1); mkBlock 30 99 70 None].
Proof.
  destruct (segmentation_allocate_spec 0%Q 1 30 (engine 100 10) ltac:(lia))
    as [_ H].
  destruct (H [] (mkBlock 0 99 100 None) []) as (st' & Hst & _ & Hsplit).
  - reflexivity.
  - constructor.
  - split; [reflexivity | simpl; lia].
  - exists st'. split; [exact Hst|]. apply Hsplit. simpl. lia.
Defined.

(** ** Allocation and the size *)







(** ** Frames under segmentation *)

Lemma mark_frames_overlaps ps b o table :
  mark_frames (blk_start b / ps) (blk_end b / ps) o table =
  (fun f => if decide (overlaps ps b f) then with_owner f o else f) <$> table.
Proof.
  unfold mark_frames. apply list_fmap_ext. intros i f _.
  unfold overlaps.
  destruct (Z.leb_spec (blk_start b / ps) (frame_id f));
    destruct (Z.leb_spec (frame_id f) (blk_end b / ps)); simpl;
    case_decide; try reflexivity; lia.
Qed.

Lemma first_fit_claimed pid size mem c mem' :
  first_fit pid size mem = Some (c, mem') →
  c ∈ mem' ∧ blk_process_id c = Some pid.
Proof.
  revert mem'. induction mem as [|a r IH]; intros mem'; [discriminate|].
  simpl. destruct (is_free a && (size <=? blk_size a)).
  - destruct (blk_size a =? size); intros [= <- <-];
      (split; [apply list_elem_of_here | reflexivity]).
  - destruct (first_fit pid size r) as [[c' r']|]; [|discriminate].
    intros [= <- <-]. destruct (IH _ eq_refl). split; [|done].
    by apply list_elem_of_further.
Qed.

Lemma release_block_found pid pre b post :
  (∀ a, a ∈ pre → blk_process_id a ≠ Some pid) →
  blk_process_id b = Some pid →
  release_block pid (pre ++ b :: post) =
  (Some (set_owner b None), pre ++ set_owner b None :: post).
Proof.
  intros Hpre Hb. induction pre as [|a r IH]; simpl.
  - by rewrite decide_True.
  - rewrite decide_False by (apply Hpre, list_elem_of_here).
    rewrite IH; [done|]. intros a' Ha'. by apply Hpre, list_elem_of_further.
Qed.

(** C10: the frames marked by a segmentation allocation, and cleared by a
    segmentation deallocation, are all the frames that overlap the block,
    those it covers only in part included.  So with a page size of 10,
    after segments of 15 and 10 addresses the frame of addresses 10..19
    carries pid 2 while pid 1 holds 10..14, and deallocating pid 1 frees
    that frame under pid 2, which still holds 15..19. *)
Theorem segmentation_marks_overlapping_frames now pid st :
  (∀ size st', allocate_process now pid size SEGMENTATION st = (true, st') →
     ∃ b, b ∈ memory st' ∧ blk_process_id b = Some pid ∧
       allocated_processes st' !! pid =
         Some (SegmentationInfo size (blk_start b) (blk_end b)) ∧
       page_table st' =
         (fun f => if decide (overlaps (page_size st) b f)
                   then with_owner f (Some pid) else f) <$> page_table st) ∧
  (∀ size s e pre b post,
     allocated_processes st !! pid = Some (SegmentationInfo size s e) →
     memory st = pre ++ b :: post →
     (∀ a, a ∈ pre → blk_process_id a ≠ Some pid) →
     blk_process_id b = Some pid →
     page_table (deallocate_process now pid st).2 =
       (fun f => if decide (overlaps (page_size st) b f)
                 then with_owner f None else f) <$> page_table st) ∧
  (let st1 := (allocate_process 0%Q 1 15 SEGMENTATION (engine 100 10)).2 in
   let st2 := (allocate_process 1%Q 2 10 SEGMENTATION st1).2 in
   let st3 := (deallocate_process 2%Q 1 st2).2 in
   (frm_process_id <$> page_table st1) !! 1%nat = Some (Some 1) ∧
   (frm_process_id <$> page_table st2) !! 1%nat = Some (Some 2) ∧
   memory st2 = [mkBlock 0 14 15 (Some 1); mkBlock 15 24 10 (Some 2);
                 mkBlock 25 99 75 None] ∧
   (frm_process_id <$> page_table st3) !! 1%nat = Some None ∧
   memory st3 = [mkBlock 0 14 15 None; mkBlock 15 24 10 (Some 2);
                 mkBlock 25 99 75 None]).
Proof.
  split; [|split].
  - intros size st'. simpl. unfold _allocate_process_segmentation.
    destruct (first_fit pid size (memory st)) as [[c mem]|] eqn:E;
      [|discriminate].
    intros [= <-]. simpl. exists c.
    destruct (first_fit_claimed _ _ _ _ _ E) as [Hin Ho].
    repeat split; [done | done | apply lookup_insert_eq |].
    apply mark_frames_overlaps.
  - intros size s e pre b post Hreg Hmem Hpre Hb.
    unfold deallocate_process. rewrite Hreg, Hmem.
    rewrite release_block_found by done. simpl.
    apply (mark_frames_overlaps (page_size st) (set_owner b None)).
  - vm_compute. repeat split.
Qed.

Lemma segmentation_marks_overlapping_frames_witness :
  page_table (deallocate_process 2%Q 1
                (allocate_process 0%Q 1 15 SEGMENTATION (engine 100 10)).2).2 =
  page_table (engine 100 10).
Proof.
  pose proof (proj1 (proj2 (segmentation_marks_overlapping_frames 2%Q 1
    (allocate_process 0%Q 1 15 SEGMENTATION (engine 100 10)).2))
    15 0 14 [] (mkBlock 0 14 15 (Some 1)) [mkBlock 15 99 85 None]) as H.
  rewrite H.
  - vm_compute. reflexivity.
  - vm_compute. reflexivity.
  - vm_compute. reflexivity.
  - intros a Ha. by apply elem_of_nil in Ha.
  - reflexivity.
Defined.

(** ** Internal fragmentation *)

Lemma internal_fragmentation_insert ps pid info (procs : gmap Z ProcessInfo) :
  internal_fragmentation_of ps (<[pid := info]> procs) =
  internal_fragmentation_of ps (delete pid procs)
  + process_internal_fragmentation ps info.
Proof.
  unfold internal_fragmentation_of.
  rewrite <- (insert_delete_eq procs).
  rewrite map_fold_insert_L; [reflexivity| |apply lookup_delete_eq].
  intros. lia.
Qed.

Lemma ceil_div_exact size ps :
  0 < ps → (ceil_div size ps * ps - size = 0 ↔ size mod ps = 0).
Proof.
  intros Hps. unfold ceil_div.
  pose proof (Z.div_mod size ps ltac:(lia)) as Hdm.
  pose proof (Z.mod_pos_bound size ps Hps) as Hb.
  destruct (Z.eqb_spec (size mod ps) 0) as [E|E]; split; intros; nia.
Qed.

(** C8: after a successful paging allocation of a positive size the
    process adds [ceil(size / page_size) * page_size - size] to the
    internal fragmentation of the stats, which is 0 exactly when the size
    is a multiple of the page size; a process allocated by segmentation
    adds 0. *)
Theorem internal_fragmentation_contribution now pid size st st' :
  0 < size → 0 < page_size st →
  (allocate_process now pid size PAGING st = (true, st') →
     ∃ frames,
       allocated_processes st' !! pid = Some (PagingInfo size frames) ∧
       let c := process_internal_fragmentation (page_size st)
                  (PagingInfo size frames) in
       c = ceil_div size (page_size st) * page_size st - size ∧
       (c = 0 ↔ size mod page_size st = 0) ∧
       internal_fragmentation (stats st') =
         internal_fragmentation_of (page_size st)
           (delete pid (allocated_processes st)) + c) ∧
  (allocate_process now pid size SEGMENTATION st = (true, st') →
     ∃ info,
       allocated_processes st' !! pid = Some info ∧
       process_internal_fragmentation (page_size st) info = 0 ∧
       internal_fragmentation (stats st') =
         internal_fragmentation_of (page_size st)
           (delete pid (allocated_processes st))).
Proof.
  intros Hsize Hps. split.
  - simpl. unfold _allocate_process_paging.
    set (free := filter (fun f => frame_is_free f = true) (page_table st)).
    set (pn := pages_needed_for (page_size st) size).
    destruct (Z.ltb_spec (Z.of_nat (length free)) pn) as [|Hroom];
      [discriminate|].
    intros [= <-]. simpl. eexists. split; [apply lookup_insert_eq|].
    assert (Hpn : 0 < pn).
    { unfold pn. rewrite pages_needed_ceil by done.
      pose proof (ceil_div_bounds size _ Hps). nia. }
    assert (Hc : Z.of_nat (length (frame_id <$> slice_to pn free))
                 * page_size st - size
                 = ceil_div size (page_size st) * page_size st - size).
    { rewrite length_fmap, slice_to_take, length_take by lia.
      rewrite <- pages_needed_ceil by done. fold pn. f_equal. f_equal. lia. }
    cbv zeta. unfold process_internal_fragmentation.
    split; [exact Hc|]. split.
    + rewrite Hc. by apply ceil_div_exact.
    + rewrite internal_fragmentation_insert. reflexivity.
  - simpl. unfold _allocate_process_segmentation.
    destruct (first_fit pid size (memory st)) as [[c mem]|]; [|discriminate].
    intros [= <-]. simpl. eexists. split; [apply lookup_insert_eq|].
    split; [reflexivity|].
    rewrite internal_fragmentation_insert. simpl. lia.
Qed.

Lemma internal_fragmentation_contribution_witness :
  internal_fragmentation
    (stats (allocate_process 0%Q 2 40 PAGING (engine 256 16)).2) = 8.
Proof.
  destruct (internal_fragmentation_contribution 0%Q 2 40 (engine 256 16)
              (allocate_process 0%Q 2 40 PAGING (engine 256 16)).2
              ltac:(lia) ltac:(simpl; lia)) as [H _].
  specialize (H ltac:(vm_compute; reflexivity)).
  destruct H as (frames & Hreg & _ & _ & ->).
  vm_compute in Hreg. injection Hreg as <-.
  vm_compute. reflexivity.
Defined.

(** ** Block sequences *)

Lemma chain_le s l t : chain s l t → s ≤ t.
Proof.
  revert s. induction l as [|b r IH]; simpl; intros s H; [lia|].
  destruct H as (? & ? & ? & Hr). apply IH in Hr. lia.
Qed.

Lemma chain_elem s l t b :
  chain s l t → b ∈ l →
  s ≤ blk_start b ∧ blk_start b ≤ blk_end b ∧ blk_end b < t ∧
  blk_size b = blk_end b - blk_start b + 1.
Proof.
  revert s. induction l as [|a r IH]; intros s H Hb; [by inversion Hb|].
  destruct H as (Hs & Hsz & Hpos & Hr).
  apply elem_of_cons in Hb as [->|Hb].
  - apply chain_le in Hr. lia.
  - destruct (IH _ Hr Hb) as (? & ? & ? & ?). lia.
Qed.

Lemma chain_app s l1 l2 t :
  chain s (l1 ++ l2) t ↔ ∃ m, chain s l1 m ∧ chain m l2 t.
Proof.
  revert s. induction l1 as [|a r IH]; intros s; simpl.
  - split; [intros H; by exists s | by intros (m & -> & H)].
  - rewrite IH. split.
    + intros (? & ? & ? & m & ? & ?). exists m. tauto.
    + intros (m & (? & ? & ? & ?) & ?). repeat split; try done. by exists m.
Qed.

(** Two blocks of a chain are the same block or lie apart. *)
Lemma chain_apart s l t b1 b2 :
  chain s l t → b1 ∈ l → b2 ∈ l →
  b1 = b2 ∨ blk_end b1 < blk_start b2 ∨ blk_end b2 < blk_start b1.
Proof.
  revert s. induction l as [|a r IH]; intros s H H1 H2; [by inversion H1|].
  destruct H as (Hs & Hsz & Hpos & Hr).
  apply elem_of_cons in H1 as [->|H1]; apply elem_of_cons in H2 as [->|H2].
  - by left.
  - right. left. destruct (chain_elem _ _ _ _ Hr H2). lia.
  - right. right. destruct (chain_elem _ _ _ _ Hr H1). lia.
  - by eapply IH.
Qed.

Lemma chain_same_start s l t b1 b2 :
  chain s l t → b1 ∈ l → b2 ∈ l → blk_start b1 = blk_start b2 → b1 = b2.
Proof.
  intros H H1 H2 Heq.
  destruct (chain_apart _ _ _ _ _ H H1 H2) as [?|[?|?]]; [done|..];
    destruct (chain_elem _ _ _ _ H H1) as (? & ? & ? & ?);
    destruct (chain_elem _ _ _ _ H H2) as (? & ? & ? & ?); lia.
Qed.

Lemma chain_set_owner s pre b post t o :
  chain s (pre ++ b :: post) t → chain s (pre ++ set_owner b o :: post) t.
Proof.
  rewrite !chain_app. intros (m & Hpre & Hb). exists m. split; [done|].
  exact Hb.
Qed.

Lemma distinct_after_weaken o l : distinct_after o l → owned_distinct_after o l.
Proof.
  revert o. induction l as [|b r IH]; intros o; simpl; [done|].
  intros [Hne Hr]. split; [done | by apply IH].
Qed.

Lemma distinct_after_free o l : distinct_after o l → owned_distinct_after None l.
Proof.
  destruct l as [|b r]; simpl; [done|].
  intros [_ Hr]. split; [done | by apply distinct_after_weaken].
Qed.

Lemma distinct_after_head o o' l :
  distinct_after o l → (∀ b, head l = Some b → o' ≠ blk_process_id b) →
  distinct_after o' l.
Proof.
  destruct l as [|b r]; simpl; [done|].
  intros [_ Hr] Hh. split; [by apply Hh | done].
Qed.

(** *** First fit *)

Lemma first_fit_inv pid size mem c mem' :
  first_fit pid size mem = Some (c, mem') →
  ∃ pre a post,
    mem = pre ++ a :: post ∧ fits size a ∧
    Forall (fun b => ¬ fits size b) pre ∧
    ((blk_size a = size ∧ c = set_owner a (Some pid) ∧
      mem' = pre ++ c :: post) ∨
     (blk_size a ≠ size ∧ c = claimed_prefix a pid size ∧
      mem' = pre ++ c :: free_suffix a size :: post)).
Proof.
  intros H. destruct (first_fit_cases size mem)
    as [Hn|(pre & a & post & -> & Hpre & Ha)].
  - rewrite (first_fit_none _ _ _ Hn) in H. discriminate.
  - exists pre, a, post. repeat (split; [done|]).
    rewrite (first_fit_hit _ _ _ _ _ Hpre Ha) in H.
    destruct (Z.eqb_spec (blk_size a) size); injection H as <- <-;
      [left | right]; done.
Qed.

Lemma first_fit_chain pid size mem c mem' s t :
  0 < size → chain s mem t →
  first_fit pid size mem = Some (c, mem') → chain s mem' t.
Proof.
  intros Hsize Hch H.
  apply first_fit_inv in H
    as (pre & a & post & -> & [Hfree Hle] & _ & [(Hsz & -> & ->)|(Hsz & -> & ->)]).
  - by apply chain_set_owner.
  - apply chain_app in Hch as (m & Hpre & Ha & Hasz & Hpos & Hpost).
    apply chain_app. exists m. split; [done|].
    simpl. repeat split; try lia. exact Hpost.
Qed.

Lemma first_fit_distinct_after pid size mem c mem' o :
  distinct_after o mem → o ≠ Some pid →
  (∀ b, b ∈ mem → blk_process_id b ≠ Some pid) →
  first_fit pid size mem = Some (c, mem') → distinct_after o mem'.
Proof.
  revert o mem'. induction mem as [|a r IH]; intros o mem' Hd Ho Hfresh;
    [discriminate|].
  destruct Hd as [Hoa Hr]. simpl.
  destruct (is_free a && (size <=? blk_size a)) eqn:E.
  - apply fits_test in E as [Hfree _].
    assert (Hhead : distinct_after (Some pid) r).
    { eapply distinct_after_head; [exact Hr|].
      intros b Hb Heq. destruct r as [|b' r']; [discriminate|].
      injection Hb as ->. eapply Hfresh; [|done].
      apply list_elem_of_further, list_elem_of_here. }
    destruct (blk_size a =? size); intros [= <- <-]; simpl.
    + split; [done | exact Hhead].
    + split; [done|]. split; [done|]. by rewrite Hfree in Hr.
  - destruct (first_fit pid size r) as [[c' r']|] eqn:Er; [|discriminate].
    intros [= <- <-]. simpl. split; [done|].
    eapply IH; [done | | | reflexivity].
    + apply Hfresh, list_elem_of_here.
    + intros b Hb. by apply Hfresh, list_elem_of_further.
Qed.

Lemma first_fit_distinct pid size mem c mem' :
  distinct_neighbours mem →
  (∀ b, b ∈ mem → blk_process_id b ≠ Some pid) →
  first_fit pid size mem = Some (c, mem') → distinct_neighbours mem'.
Proof.
  destruct mem as [|a r]; [discriminate|].
  intros Hd Hfresh. simpl.
  destruct (is_free a && (size <=? blk_size a)) eqn:E.
  - apply fits_test in E as [Hfree _].
    simpl in Hd.
    assert (Hhead : distinct_after (Some pid) r).
    { eapply distinct_after_head; [exact Hd|].
      intros b Hb Heq. destruct r as [|b' r']; [discriminate|].
      injection Hb as ->. eapply Hfresh; [|done].
      apply list_elem_of_further, list_elem_of_here. }
    destruct (blk_size a =? size); intros [= <- <-]; simpl.
    + exact Hhead.
    + split; [done|]. by rewrite Hfree in Hd.
  - destruct (first_fit pid size r) as [[c' r']|] eqn:Er; [|discriminate].
    intros [= <- <-]. simpl.
    eapply first_fit_distinct_after; [exact Hd | | | exact Er].
    + apply Hfresh, list_elem_of_here.
    + intros b Hb. by apply Hfresh, list_elem_of_further.
Qed.

(** *** Releasing a block *)

Lemma release_block_cases pid mem :
  ((∀ b, b ∈ mem → blk_process_id b ≠ Some pid) ∧
   release_block pid mem = (None, mem)) ∨
  (∃ pre b post, mem = pre ++ b :: post ∧
     (∀ a, a ∈ pre → blk_process_id a ≠ Some pid) ∧
     blk_process_id b = Some pid ∧
     release_block pid mem =
       (Some (set_owner b None), pre ++ set_owner b None :: post)).
Proof.
  induction mem as [|a r IH].
  - left. split; [by intros b ?%elem_of_nil | reflexivity].
  - destruct (decide (blk_process_id a = Some pid)) as [Ha|Ha].
    + right. exists [], a, r. split; [reflexivity|].
      split; [by intros b ?%elem_of_nil|]. split; [done|].
      simpl. by rewrite decide_True.
    + destruct IH as [[Hn Hr]|(pre & b & post & -> & Hpre & Hb & Hr)].
      * left. split.
        -- intros b [->|Hb]%elem_of_cons; [done | by apply Hn].
        -- simpl. rewrite decide_False by done. by rewrite Hr.
      * right. exists (a :: pre), b, post. split; [reflexivity|].
        split; [|split; [done|]].
        -- intros b' [->|Hb']%elem_of_cons; [done | by apply Hpre].
        -- simpl. rewrite decide_False by done. by rewrite Hr.
Qed.

Lemma release_block_owned_distinct pid mem o :
  distinct_after o mem → owned_distinct_after o (release_block pid mem).2.
Proof.
  revert o. induction mem as [|a r IH]; intros o; simpl; [done|].
  intros [Hoa Hr]. destruct (decide (blk_process_id a = Some pid)).
  - simpl. split; [congruence|]. by eapply distinct_after_free.
  - specialize (IH _ Hr). destruct (release_block pid r) as [found r'].
    simpl in *. split; [done | exact IH].
Qed.

(** *** Merging free blocks *)

Lemma merge_from_chain cur rest s t :
  chain s (cur :: rest) t → chain s (merge_from cur rest) t.
Proof.
  revert cur s. induction rest as [|nxt r IH]; intros cur s H; [exact H|].
  simpl. destruct (is_free cur && is_free nxt).
  - apply IH. destruct H as (? & ? & ? & ? & ? & ? & Hr).
    simpl. repeat split; try lia. exact Hr.
  - destruct H as (? & ? & ? & Hr). simpl. repeat split; try done.
    by apply IH.
Qed.

Lemma merge_from_head cur rest :
  ∃ h out, merge_from cur rest = h :: out ∧
    blk_process_id h = blk_process_id cur ∧ blk_start h = blk_start cur.
Proof.
  revert cur. induction rest as [|nxt r IH]; intros cur; simpl; [by eauto|].
  destruct (is_free cur && is_free nxt); [|by eauto].
  destruct (IH (absorb cur nxt)) as (h & out & -> & ? & ?). by eauto.
Qed.

Lemma merge_from_distinct cur rest :
  owned_distinct_after (blk_process_id cur) rest →
  distinct_neighbours (merge_from cur rest).
Proof.
  revert cur. induction rest as [|nxt r IH]; intros cur; simpl; [done|].
  intros [Hcn Hr]. destruct (is_free cur && is_free nxt) eqn:E.
  - apply IH. simpl. apply andb_true_iff in E as [E1 E2].
    unfold is_free in *. destruct (blk_process_id cur), (blk_process_id nxt);
      done.
  - specialize (IH nxt Hr).
    destruct (merge_from_head nxt r) as (h & out & Hm & Hh & _).
    rewrite Hm in *. simpl in *. split; [|done].
    rewrite Hh. intros Heq. specialize (Hcn Heq).
    unfold is_free in E. rewrite <- Heq, Hcn in E. discriminate.
Qed.

Lemma merge_from_owned_in cur rest b p :
  b ∈ merge_from cur rest → blk_process_id b = Some p → b ∈ cur :: rest.
Proof.
  revert cur. induction rest as [|nxt r IH]; intros cur; simpl; [done|].
  destruct (is_free cur && is_free nxt) eqn:E.
  - intros Hb Hp. apply IH in Hb; [|done].
    apply elem_of_cons in Hb as [->|Hb].
    + apply andb_true_iff in E as [E _]. unfold is_free in E.
      simpl in Hp. rewrite Hp in E. discriminate.
    + by do 2 apply list_elem_of_further.
  - intros [->|Hb]%elem_of_cons Hp; [apply list_elem_of_here|].
    apply list_elem_of_further. by apply IH.
Qed.

Lemma merge_from_owned_kept cur rest b p :
  b ∈ cur :: rest → blk_process_id b = Some p → b ∈ merge_from cur rest.
Proof.
  revert cur. induction rest as [|nxt r IH]; intros cur; simpl; [done|].
  destruct (is_free cur && is_free nxt) eqn:E.
  - apply andb_true_iff in E as [E1 E2]. unfold is_free in *.
    intros Hb Hp. apply IH; [|done].
    apply elem_of_cons in Hb as [->|Hb]; [by rewrite Hp in E1|].
    apply elem_of_cons in Hb as [->|Hb]; [by rewrite Hp in E2|].
    by apply list_elem_of_further.
  - intros [->|Hb]%elem_of_cons Hp; [apply list_elem_of_here|].
    apply list_elem_of_further. by apply IH.
Qed.

(** *** Pages *)

Lemma page_of_start ps i : 0 < ps → i * ps / ps = i.
Proof. intros. apply Z.div_mul. lia. Qed.

Lemma page_of_end ps j : 0 < ps → ((j + 1) * ps - 1) / ps = j.
Proof.
  intros. symmetry. apply Z.div_unique with (r := ps - 1); lia.
Qed.

Lemma page_succ ps x : 0 < ps → (x + 1) / ps ≤ x / ps + 1.
Proof.
  intros. rewrite <- (Z.div_add x 1 ps) by lia.
  apply Z.div_le_mono; lia.
Qed.

Lemma page_mono ps x y : 0 < ps → x ≤ y → x / ps ≤ y / ps.
Proof. intros. by apply Z.div_le_mono. Qed.

Lemma overlaps_mono ps a b f :
  0 < ps → blk_start a ≤ blk_start b → blk_end b ≤ blk_end a →
  overlaps ps b f → overlaps ps a f.
Proof.
  unfold overlaps. intros Hps Hs He [H1 H2].
  pose proof (page_mono ps _ _ Hps Hs). pose proof (page_mono ps _ _ Hps He).
  lia.
Qed.

Lemma chain_absorb cur nxt r s t :
  chain s (cur :: nxt :: r) t → chain s (absorb cur nxt :: r) t.
Proof.
  intros (? & ? & ? & ? & ? & ? & Hr). simpl. repeat split; try lia. exact Hr.
Qed.

(** A frame that overlaps a merged free block overlaps one of the free
    blocks it was merged from. *)
Lemma merge_from_free_overlap ps cur rest s t b f :
  0 < ps → chain s (cur :: rest) t →
  b ∈ merge_from cur rest → blk_process_id b = None → overlaps ps b f →
  ∃ a, a ∈ cur :: rest ∧ blk_process_id a = None ∧ overlaps ps a f.
Proof.
  intros Hps. revert cur s.
  induction rest as [|nxt r IH]; intros cur s Hch; simpl.
  - intros ->%list_elem_of_singleton Hb Ho. exists cur.
    split; [apply list_elem_of_here | done].
  - destruct (is_free cur && is_free nxt) eqn:E.
    + intros Hb Hfree Ho.
      destruct (IH _ _ (chain_absorb _ _ _ _ _ Hch) Hb Hfree Ho)
        as (a & Ha & Hafree & Hao).
      apply elem_of_cons in Ha as [->|Ha].
      * apply andb_true_iff in E as [E1 E2]. unfold is_free in E1, E2.
        destruct Hch as (? & ? & ? & Hn & ? & ? & _).
        destruct Hao as [Hlo Hhi]. simpl in Hlo, Hhi.
        destruct (decide (frame_id f ≤ blk_end cur / ps)).
        -- exists cur. split; [apply list_elem_of_here|].
           split; [by destruct (blk_process_id cur) | done].
        -- exists nxt. split; [apply list_elem_of_further, list_elem_of_here|].
           split; [by destruct (blk_process_id nxt)|].
           split; [|done]. rewrite Hn.
           pose proof (page_succ ps (blk_end cur) Hps). lia.
      * exists a. split; [by do 2 apply list_elem_of_further | done].
    + intros [->|Hb]%elem_of_cons Hfree Ho.
      * exists cur. split; [apply list_elem_of_here | done].
      * destruct Hch as (? & ? & ? & Hr).
        destruct (IH _ _ Hr Hb Hfree Ho) as (a & Ha & ? & ?).
        exists a. split; [by apply list_elem_of_further | done].
Qed.

(** *** Updates of the frame table *)

Section frame_updates.
Context (P : Z → Prop) `{!∀ x, Decision (P x)} (o : option Z).

Lemma set_owner_where_frames_from ps k t :
  frames_from ps k t → frames_from ps k (set_owner_where P o t).
Proof.
  revert k. induction t as [|f r IH]; intros k; [done|].
  intros (? & ? & ? & Hr). unfold set_owner_where. rewrite fmap_cons.
  split; [|split; [|split; [|by apply IH]]]; by case_decide.
Qed.

Lemma set_owner_where_length t :
  length (set_owner_where P o t) = length t.
Proof. unfold set_owner_where. apply length_fmap. Qed.

Lemma set_owner_where_elem t f' :
  f' ∈ set_owner_where P o t →
  ∃ f, f ∈ t ∧ frame_id f' = frame_id f ∧
    frm_process_id f' = if decide (P (frame_id f)) then o
                        else frm_process_id f.
Proof.
  unfold set_owner_where. intros (f & -> & Hf)%list_elem_of_fmap.
  exists f. split; [done|]. by case_decide.
Qed.
End frame_updates.

Lemma frames_from_inj ps k t f g :
  frames_from ps k t → f ∈ t → g ∈ t → frame_id f = frame_id g → f = g.
Proof.
  revert k. induction t as [|a r IH]; intros k H Hf Hg Heq;
    [by inversion Hf|].
  destruct H as (Hid & _ & _ & Hr).
  apply elem_of_cons in Hf as [->|Hf]; apply elem_of_cons in Hg as [->|Hg].
  - done.
  - pose proof (frames_from_ge _ _ _ _ Hr Hg). lia.
  - pose proof (frames_from_ge _ _ _ _ Hr Hf). lia.
  - by eapply IH.
Qed.

Lemma frames_from_lt ps k t f :
  frames_from ps k t → f ∈ t → frame_id f < k + Z.of_nat (length t).
Proof.
  revert k. induction t as [|a r IH]; intros k H Hf; [by inversion Hf|].
  destruct H as (Hid & _ & _ & Hr). simpl length.
  apply elem_of_cons in Hf as [->|Hf]; [lia|].
  specialize (IH _ Hr Hf). lia.
Qed.

Lemma frames_from_exists ps k t x :
  frames_from ps k t → k ≤ x < k + Z.of_nat (length t) →
  ∃ f, f ∈ t ∧ frame_id f = x.
Proof.
  revert k. induction t as [|a r IH]; intros k H Hx; [simpl in Hx; lia|].
  destruct H as (Hid & _ & _ & Hr). simpl length in Hx.
  destruct (decide (x = k)) as [->|Hne].
  - exists a. split; [apply list_elem_of_here | done].
  - destruct (IH _ Hr) as (f & Hf & ?); [lia|].
    exists f. split; [by apply list_elem_of_further | done].
Qed.

Lemma mark_frames_set_owner_where lo hi o t :
  mark_frames lo hi o t = set_owner_where (fun x => lo ≤ x ≤ hi) o t.
Proof.
  unfold mark_frames, set_owner_where. apply list_fmap_ext. intros i f _.
  destruct (Z.leb_spec lo (frame_id f));
    destruct (Z.leb_spec (frame_id f) hi); cbn [andb];
    case_decide; try reflexivity; lia.
Qed.


Lemma release_frames_set_owner_where fl t :
  release_frames fl t = set_owner_where (fun x => x ∈ fl) None t.
Proof.
  unfold release_frames, set_owner_where. revert t.
  induction fl as [|a fl IH]; intros t; cbn [foldl].
  - rewrite <- (list_fmap_id t) at 1. apply list_fmap_ext. intros i f _.
    rewrite decide_False; [done | by intros ?%elem_of_nil].
  - rewrite IH, <- list_fmap_compose. apply list_fmap_ext. intros i f _.
    unfold compose.
    destruct (Z.eqb_spec (frame_id f) a) as [Heq|Hne]; cbn [frame_id].
    + rewrite (decide_True (P := frame_id f ∈ a :: fl))
        by (rewrite Heq; apply list_elem_of_here).
      by case_decide.
    + destruct (decide (frame_id f ∈ fl)).
      * rewrite decide_True; [done | by apply list_elem_of_further].
      * rewrite decide_False; [done|].
        intros [?|?]%elem_of_cons; done.
Qed.

(** Whatever the commands, the frame table keeps its numbering. *)
Lemma allocate_frames_from ps now pid size method st :
  frames_from ps 0 (page_table st) →
  frames_from ps 0 (page_table (allocate_process now pid size method st).2).
Proof.
  intros Hwf. destruct method; simpl.
  - unfold _allocate_process_paging. destruct (_ <? _); simpl; [done|].
    rewrite (claim_frames_spec _ _ _ _ _ Hwf).
    exact (set_owner_where_frames_from (fun x => x ∈ _) _ _ _ _ Hwf).
  - unfold _allocate_process_segmentation.
    destruct (first_fit _ _ _) as [[c mem]|]; simpl; [|done].
    rewrite mark_frames_set_owner_where.
    by apply set_owner_where_frames_from.
Qed.

Lemma deallocate_frames_from ps now pid st :
  frames_from ps 0 (page_table st) →
  frames_from ps 0 (page_table (deallocate_process now pid st).2).
Proof.
  intros Hwf. unfold deallocate_process.
  destruct (allocated_processes st !! pid) as [[sz fl|sz s e]|]; [| |done].
  - simpl. rewrite release_frames_set_owner_where.
    by apply set_owner_where_frames_from.
  - destruct (release_block pid (memory st)) as [[b|] mem]; simpl; [|done].
    rewrite mark_frames_set_owner_where.
    by apply set_owner_where_frames_from.
Qed.

(** *** The rebuilt block view *)

Lemma insert_by_frame_id_last f acc :
  (∀ g, g ∈ acc → frame_id g ≤ frame_id f) →
  insert_by_frame_id f acc = acc ++ [f].
Proof.
  induction acc as [|g r IH]; intros H; [reflexivity|]. simpl.
  destruct (Z.leb_spec (frame_id g) (frame_id f)) as [_|Hlt].
  - rewrite IH; [done|]. intros g' Hg'. by apply H, list_elem_of_further.
  - specialize (H g (list_elem_of_here _ _)). lia.
Qed.

Lemma sorted_frames_from ps k l acc :
  frames_from ps k l → (∀ g, g ∈ acc → frame_id g < k) →
  foldl (fun acc f => insert_by_frame_id f acc) acc l = acc ++ l.
Proof.
  revert k acc. induction l as [|f r IH]; intros k acc Hl Hacc; simpl.
  - by rewrite app_nil_r.
  - destruct Hl as (Hid & _ & _ & Hr).
    rewrite insert_by_frame_id_last.
    + rewrite (IH (k + 1)); [by rewrite <- app_assoc | done |].
      intros g [Hg|Hg]%elem_of_app.
      * specialize (Hacc _ Hg). lia.
      * apply list_elem_of_singleton in Hg. subst. lia.
    + intros g Hg. specialize (Hacc _ Hg). lia.
Qed.

(** The frames of a well-formed table are already in frame-id order. *)
Lemma sorted_by_frame_id_id ps k t :
  frames_from ps k t → sorted_by_frame_id t = t.
Proof.
  intros H. unfold sorted_by_frame_id.
  rewrite (sorted_frames_from ps k); [done | done |].
  by intros g ?%elem_of_nil.
Qed.

Lemma open_run_closed ps t cur i k :
  open_run ps t cur i k → is_run ps t cur.
Proof.
  intros (Hik & Hs & He & _ & Hf & Hall & Hleft).
  exists i, (k - 1). split; [lia|]. split; [done|]. split; [rewrite He; lia|].
  split; [done|]. split; [|done].
  intros f Hft Hf'. apply Hall; [done | lia].
Qed.

Lemma open_run_overlaps ps t cur i k f :
  0 < ps → open_run ps t cur i k → i ≤ frame_id f < k → overlaps ps cur f.
Proof.
  intros Hps (Hik & Hs & He & _) Hf. unfold overlaps.
  rewrite Hs, He, page_of_start by done.
  replace (k * ps - 1) with ((k - 1 + 1) * ps - 1) by lia.
  rewrite page_of_end by done. lia.
Qed.

Lemma scan_frames_spec ps t :
  0 < ps → ∀ r cur i k,
  frames_from ps k r →
  (∀ f, f ∈ r → f ∈ t) →
  (∀ f, f ∈ t → k ≤ frame_id f → f ∈ r) →
  open_run ps t cur i k →
  chain (i * ps) (scan_frames (Some cur) r) ((k + Z.of_nat (length r)) * ps) ∧
  (∃ h out, scan_frames (Some cur) r = h :: out ∧
     blk_process_id h = blk_process_id cur ∧
     distinct_after (blk_process_id h) out) ∧
  (∀ b, b ∈ scan_frames (Some cur) r → is_run ps t b) ∧
  (∀ f, f ∈ t → i ≤ frame_id f →
     ∃ b, b ∈ scan_frames (Some cur) r ∧
       blk_process_id b = frm_process_id f ∧ overlaps ps b f).
Proof.
  intros Hps. induction r as [|g r IH]; intros cur i k Hr Hsub Hsup Hcur.
  - simpl scan_frames.
    pose proof Hcur as (Hik & Hs & He & Hsz & Hf & Hall & Hleft).
    split; [|split; [|split]].
    + simpl. repeat split; try done; nia.
    + exists cur, []. by repeat split.
    + intros b ->%list_elem_of_singleton. by eapply open_run_closed.
    + intros f Hft Hfi.
      assert (frame_id f < k).
      { destruct (decide (frame_id f < k)); [done|].
        exfalso. eapply elem_of_nil, Hsup; [done | lia]. }
      exists cur. split; [apply list_elem_of_here|]. split.
      * symmetry. by apply Hall.
      * by eapply open_run_overlaps.
  - destruct Hr as (Hid & Hgs & Hge & Hr).
    assert (Hgt : g ∈ t) by apply Hsub, list_elem_of_here.
    assert (Hsub' : ∀ f, f ∈ r → f ∈ t)
      by (intros f Hf; by apply Hsub, list_elem_of_further).
    assert (Hsup' : ∀ f, f ∈ t → k + 1 ≤ frame_id f → f ∈ r).
    { intros f Hft Hf. pose proof (Hsup f Hft ltac:(lia)) as Hfr.
      apply elem_of_cons in Hfr as [->|Hfr]; [lia | done]. }
    assert (Honly : ∀ f, f ∈ t → frame_id f = k → f = g).
    { intros f Hft Hf. pose proof (Hsup f Hft ltac:(lia)) as Hfr.
      apply elem_of_cons in Hfr as [->|Hfr]; [done|].
      pose proof (frames_from_ge _ _ _ _ Hr Hfr). lia. }
    assert (Hlen : (k + Z.of_nat (length (g :: r))) * ps
                   = (k + 1 + Z.of_nat (length r)) * ps)
      by (simpl length; lia).
    rewrite Hlen.
    pose proof Hcur as (Hik & Hs & He & Hsz & Hf & Hall & Hleft).
    simpl scan_frames.
    destruct (decide (blk_process_id cur = frm_process_id g)) as [Heq|Hne].
    + assert (Hext : open_run ps t (extend_block cur (end_address g)) i (k + 1)).
      { split; [lia|]. simpl. repeat split; try done; try lia.
        intros f Hft Hfk. destruct (decide (frame_id f = k)) as [Hk|Hk].
        - rewrite (Honly f Hft Hk). done.
        - apply Hall; [done | lia]. }
      destruct (IH _ _ _ Hr Hsub' Hsup' Hext)
        as (Hch & (h & out & Hout & Hh & Hd) & Hruns & Hcov).
      split; [done|]. split; [|done]. by exists h, out.
    + assert (Hnew : open_run ps t (block_of_frame g) k (k + 1)).
      { split; [lia|]. simpl. repeat split; try done; try lia.
        - by exists g.
        - intros f Hft Hfk. by rewrite (Honly f Hft ltac:(lia)).
        - intros f Hft Hfk Heq. apply Hne. rewrite <- Heq. symmetry.
          apply Hall; [done | lia]. }
      destruct (IH _ _ _ Hr Hsub' Hsup' Hnew)
        as (Hch & (h & out & Hout & Hh & Hd) & Hruns & Hcov).
      split; [|split; [|split]].
      * simpl. repeat split; try done; try nia.
        replace (blk_end cur + 1) with (k * ps) by lia. exact Hch.
      * exists cur, (scan_frames (Some (block_of_frame g)) r).
        split; [done|]. split; [done|]. rewrite Hout. simpl.
        split; [by rewrite Hh | done].
      * intros b [->|Hb]%elem_of_cons;
          [by eapply open_run_closed | by apply Hruns].
      * intros f Hft Hfi. destruct (decide (frame_id f < k)) as [Hlt|Hge'].
        -- exists cur. split; [apply list_elem_of_here|]. split.
           ++ symmetry. by apply Hall.
           ++ by eapply open_run_overlaps.
        -- destruct (Hcov f Hft ltac:(lia)) as (b & Hb & ? & ?).
           exists b. split; [by apply list_elem_of_further | done].
Qed.

(** What [_update_memory_from_page_table] builds from a well-formed,
    non-empty table. *)
Lemma rebuild_spec ps t :
  0 < ps → frames_from ps 0 t → t ≠ [] →
  chain 0 (_update_memory_from_page_table t) (Z.of_nat (length t) * ps) ∧
  distinct_neighbours (_update_memory_from_page_table t) ∧
  (∀ b, b ∈ _update_memory_from_page_table t → is_run ps t b) ∧
  (∀ f, f ∈ t →
     ∃ b, b ∈ _update_memory_from_page_table t ∧
       blk_process_id b = frm_process_id f ∧ overlaps ps b f).
Proof.
  intros Hps Hwf Hne. unfold _update_memory_from_page_table.
  rewrite (sorted_by_frame_id_id _ _ _ Hwf).
  destruct t as [|g r]; [done|]. simpl scan_frames.
  pose proof Hwf as (Hid & Hgs & Hge & Hr). simpl in Hr.
  assert (Hopen : open_run ps (g :: r) (block_of_frame g) 0 1).
  { split; [lia|]. simpl. repeat split; try done; try lia.
    - exists g. split; [apply list_elem_of_here | done].
    - intros f [->|Hf]%elem_of_cons ?; [done|].
      pose proof (frames_from_ge _ _ _ _ Hr Hf). lia.
    - intros f Hf ?. pose proof (frames_from_ge _ _ _ _ Hwf Hf). lia. }
  destruct (scan_frames_spec ps (g :: r) Hps r (block_of_frame g) 0 1)
    as (Hch & (h & out & Hout & Hh & Hd) & Hruns & Hcov); try done.
  - intros f Hf. by apply list_elem_of_further.
  - intros f [->|Hf]%elem_of_cons ?; [lia | done].
  - split; [|split; [|split]].
    + replace (Z.of_nat (length (g :: r)) * ps)
        with ((1 + Z.of_nat (length r)) * ps) by (simpl length; lia).
      exact Hch.
    + rewrite Hout. exact Hd.
    + exact Hruns.
    + intros f Hf. apply Hcov; [done|].
      pose proof (frames_from_ge _ _ _ _ Hwf Hf). lia.
Qed.

Lemma is_run_overlaps ps k t b f :
  0 < ps → frames_from ps k t → is_run ps t b → f ∈ t → overlaps ps b f →
  frm_process_id f = blk_process_id b.
Proof.
  intros Hps Hwf (i & j & Hij & Hs & He & _ & Hall & _) Hf [Hlo Hhi].
  rewrite Hs, page_of_start in Hlo by done.
  rewrite He, page_of_end in Hhi by done.
  by apply Hall.
Qed.

Lemma is_run_owner ps t b :
  is_run ps t b → ∃ f, f ∈ t ∧ frm_process_id f = blk_process_id b.
Proof.
  intros (i & j & Hij & _ & _ & (f & Hf & Hfi) & Hall & _).
  exists f. split; [done|]. apply Hall; [done | lia].
Qed.

(** With the frames of [p] consecutive, [p] gets one block. *)
Lemma runs_unique ps k t b1 b2 p :
  frames_from ps k t → is_run ps t b1 → is_run ps t b2 →
  blk_process_id b1 = Some p → blk_process_id b2 = Some p →
  (∀ f1 f2 f3, f1 ∈ t → f2 ∈ t → f3 ∈ t →
     frm_process_id f1 = Some p → frm_process_id f3 = Some p →
     frame_id f1 ≤ frame_id f2 ≤ frame_id f3 → frm_process_id f2 = Some p) →
  blk_start b1 = blk_start b2.
Proof.
  intros Hwf H1 H2 Hp1 Hp2 Hint.
  destruct H1 as (i1 & j1 & Hij1 & Hs1 & He1 & (f1 & Hf1 & Hfi1) & Hall1 & Hl1).
  destruct H2 as (i2 & j2 & Hij2 & Hs2 & He2 & (f2 & Hf2 & Hfi2) & Hall2 & Hl2).
  assert (Hown1 : frm_process_id f1 = Some p)
    by (rewrite <- Hp1; apply Hall1; [done | lia]).
  assert (Hown2 : frm_process_id f2 = Some p)
    by (rewrite <- Hp2; apply Hall2; [done | lia]).
  rewrite Hp1 in Hl1. rewrite Hp2 in Hl2.
  destruct (Z.lt_trichotomy i1 i2) as [Hlt12|[->|Hlt21]].
  - exfalso.
    pose proof (frames_from_ge _ _ _ _ Hwf Hf1).
    pose proof (frames_from_lt _ _ _ _ Hwf Hf2).
    destruct (frames_from_exists ps k t (i2 - 1) Hwf ltac:(lia))
      as (m & Hm & Hmi).
    apply (Hl2 m Hm Hmi). apply (Hint f1 m f2); try done. lia.
  - by rewrite Hs1, Hs2.
  - exfalso.
    pose proof (frames_from_ge _ _ _ _ Hwf Hf2).
    pose proof (frames_from_lt _ _ _ _ Hwf Hf1).
    destruct (frames_from_exists ps k t (i1 - 1) Hwf ltac:(lia))
      as (m & Hm & Hmi).
    apply (Hl1 m Hm Hmi). apply (Hint f2 m f1); try done. lia.
Qed.

(** ** The invariant is established and preserved *)

Lemma frames_from_initial ps len start :
  frames_from ps (Z.of_nat start)
    (initial_frame ps <$> (Z.of_nat <$> seq start len)).
Proof.
  revert start. induction len as [|len IH]; intros start; [done|].
  simpl. repeat split; try done.
  replace (Z.of_nat start + 1) with (Z.of_nat (S start)) by lia. apply IH.
Qed.

Lemma multiple_of_page M ps : 0 < ps → M mod ps = 0 → M / ps * ps = M.
Proof.
  intros Hps Hmod. pose proof (Z.div_mod M ps ltac:(lia)). lia.
Qed.

Lemma inv_init M ps : valid_configuration M ps → Inv M ps (engine M ps).
Proof.
  intros (HM & Hps & Hmod).
  assert (Hq : 0 ≤ M / ps) by (apply Z.div_pos; lia).
  split; simpl; try done.
  - apply (frames_from_initial ps _ 0).
  - rewrite length_fmap, length_range by done. by apply multiple_of_page.
  - repeat split; lia.
  - intros b p ->%list_elem_of_singleton. done.
  - intros f p (i & -> & _)%list_elem_of_fmap. done.
Qed.

Lemma inv_with_event M ps st now pid ty d :
  Inv M ps st → Inv M ps (with_event st now pid ty d).
Proof. intros []. by split. Qed.

(** A state whose block view is rebuilt from a well-formed frame table
    satisfies the invariant as soon as its frame table does. *)
Lemma inv_rebuilt M ps st :
  0 < ps → 0 < M →
  memory_size st = M → page_size st = ps →
  frames_from ps 0 (page_table st) →
  Z.of_nat (length (page_table st)) * ps = M →
  memory st = _update_memory_from_page_table (page_table st) →
  (∀ f p, f ∈ page_table st → frm_process_id f = Some p →
     is_Some (allocated_processes st !! p)) →
  (∀ p size frames f,
     allocated_processes st !! p = Some (PagingInfo size frames) →
     f ∈ page_table st → (frame_id f ∈ frames ↔ frm_process_id f = Some p)) →
  (∀ p size s e f1 f2 f3,
     allocated_processes st !! p = Some (SegmentationInfo size s e) →
     f1 ∈ page_table st → f2 ∈ page_table st → f3 ∈ page_table st →
     frm_process_id f1 = Some p → frm_process_id f3 = Some p →
     frame_id f1 ≤ frame_id f2 ≤ frame_id f3 →
     frm_process_id f2 = Some p) →
  Inv M ps st.
Proof.
  intros Hps HM Hms Hpsz Hwf Hlen Hmem Hfo Hpag Hint.
  assert (Hne : page_table st ≠ []).
  { intros E. rewrite E in Hlen. simpl in Hlen. lia. }
  destruct (rebuild_spec ps _ Hps Hwf Hne) as (Hch & Hd & Hruns & Hcov).
  rewrite <- Hmem in Hch, Hd, Hruns, Hcov. rewrite Hlen in Hch.
  split; try done.
  - intros b p Hb Hp. destruct (is_run_owner _ _ _ (Hruns b Hb)) as (f & Hf & Ho).
    apply (Hfo f p Hf). congruence.
  - intros p size frames f b Hreg Hf Hfp Hb Hov.
    rewrite <- Hfp. symmetry.
    eapply is_run_overlaps;
      [exact Hps | exact Hwf | by apply Hruns | done | done].
  - intros p size s e b1 b2 Hreg Hb1 Hb2 Hp1 Hp2.
    eapply runs_unique; [done | by apply Hruns | by apply Hruns | done | done|].
    intros f1 f2 f3. by eapply Hint.
  - intros p size s e f Hreg Hf Hfp.
    destruct (Hcov f Hf) as (b & Hb & Ho & Hov).
    exists b. split; [done|]. split; [congruence | done].
Qed.

(** The frames a paging allocation records are free frames of the table. *)
Lemma chosen_frames_free t j x :
  x ∈ take j (free_frame_ids t) →
  ∃ f, f ∈ t ∧ frame_id f = x ∧ frm_process_id f = None.
Proof.
  intros (i & Hi & _)%elem_of_take. apply list_elem_of_lookup_2 in Hi.
  unfold free_frame_ids in Hi.
  apply list_elem_of_fmap in Hi as (f & -> & Hf).
  apply list_elem_of_filter in Hf as [Hfree Hf].
  exists f. split; [done|]. split; [done|].
  unfold frame_is_free in Hfree. by destruct (frm_process_id f).
Qed.

Lemma inv_allocate_paging M ps st now pid size :
  0 < ps → 0 < M → Inv M ps st →
  allocated_processes st !! pid = None →
  Inv M ps (_allocate_process_paging now pid size st).2.
Proof.
  intros Hps HM HI Hfresh.
  destruct (_allocate_process_paging now pid size st) as [[|] st'] eqn:E.
  2:{ apply paging_failure in E as [_ ->]. by apply inv_with_event. }
  destruct HI as [Hms Hpsz Hwf Hlen _ _ _ Hfo Hpag _ _ _ Hint].
  rewrite <- Hpsz in Hwf.
  apply paging_success in E
    as (chosen & _ & [j Hj] & Ht & Hreg & Hmem & Hms' & Hps' & _); [|done].
  rewrite Hpsz in Hwf. simpl.
  fold (set_owner_where (fun x => x ∈ chosen) (Some pid) (page_table st)) in Ht.
  assert (Hfree : ∀ f, f ∈ page_table st → frame_id f ∈ chosen →
                       frm_process_id f = None).
  { intros f Hf Hin. rewrite Hj in Hin.
    apply chosen_frames_free in Hin as (g & Hg & Hid & Hgo).
    by rewrite (frames_from_inj _ _ _ _ _ Hwf Hf Hg). }
  apply inv_rebuilt; try done; try congruence.
  - rewrite Ht. by apply set_owner_where_frames_from.
  - rewrite Ht, set_owner_where_length. done.
  - intros f' p Hf' Hp. rewrite Ht in Hf'.
    apply set_owner_where_elem in Hf' as (f & Hf & Hid & Ho).
    rewrite Hreg. apply lookup_insert_is_Some.
    destruct (decide (pid = p)) as [|Hne]; [by left | right].
    split; [done|]. apply (Hfo f p Hf).
    rewrite Ho in Hp. case_decide; [congruence | done].
  - intros p sz fl f' Hp Hf'. rewrite Ht in Hf'.
    apply set_owner_where_elem in Hf' as (f & Hf & Hid & Ho).
    rewrite Hid, Ho. rewrite Hreg in Hp.
    destruct (decide (pid = p)) as [<-|Hne].
    + rewrite lookup_insert_eq in Hp. injection Hp as <- <-.
      case_decide; [done|]. split; [done|].
      intros Hold. destruct (Hfo f pid Hf Hold) as [? ?]. congruence.
    + rewrite lookup_insert_ne in Hp by done.
      specialize (Hpag p sz fl f Hp Hf). case_decide; [|done].
      rewrite (Hfree f Hf) in Hpag by done.
      split; [|congruence]. intros Hin. apply Hpag in Hin. done.
  - intros p sz s e f1' f2' f3' Hp Hf1 Hf2 Hf3 Ho1 Ho3 Hle.
    rewrite Ht in Hf1, Hf2, Hf3. rewrite Hreg in Hp.
    assert (Hne : pid ≠ p).
    { intros <-. by rewrite lookup_insert_eq in Hp. }
    rewrite lookup_insert_ne in Hp by done.
    apply set_owner_where_elem in Hf1 as (f1 & Hf1 & Hid1 & Hown1).
    apply set_owner_where_elem in Hf2 as (f2 & Hf2 & Hid2 & Hown2).
    apply set_owner_where_elem in Hf3 as (f3 & Hf3 & Hid3 & Hown3).
    rewrite Hown1 in Ho1. rewrite Hown3 in Ho3. rewrite Hown2.
    destruct (decide (frame_id f1 ∈ chosen)); [congruence|].
    destruct (decide (frame_id f3 ∈ chosen)); [congruence|].
    assert (Hold : frm_process_id f2 = Some p).
    { apply (Hint p sz s e f1 f2 f3); try done. lia. }
    case_decide; [|done]. rewrite (Hfree f2 Hf2) in Hold by done. done.
Qed.

Lemma deallocate_paging_state now pid st size frames :
  allocated_processes st !! pid = Some (PagingInfo size frames) →
  ∃ st', deallocate_process now pid st = (true, st') ∧
    memory_size st' = memory_size st ∧ page_size st' = page_size st ∧
    page_table st' = set_owner_where (fun x => x ∈ frames) None (page_table st) ∧
    memory st' = _update_memory_from_page_table (page_table st') ∧
    allocated_processes st' = delete pid (allocated_processes st).
Proof.
  intros Hreg. unfold deallocate_process. rewrite Hreg.
  eexists. split; [reflexivity|]. simpl.
  rewrite release_frames_set_owner_where. done.
Qed.

Lemma inv_deallocate_paging M ps st now pid size frames :
  0 < ps → 0 < M → Inv M ps st →
  allocated_processes st !! pid = Some (PagingInfo size frames) →
  Inv M ps (deallocate_process now pid st).2.
Proof.
  intros Hps HM HI Hpid.
  destruct (deallocate_paging_state now pid st size frames Hpid)
    as (st' & -> & Hms' & Hps' & Ht & Hmem & Hreg).
  destruct HI as [Hms Hpsz Hwf Hlen _ _ _ Hfo Hpag _ _ _ Hint]. simpl.
  assert (Hmine : ∀ f, f ∈ page_table st →
            (frame_id f ∈ frames ↔ frm_process_id f = Some pid))
    by (intros f Hf; by eapply Hpag).
  apply inv_rebuilt; try done; try congruence.
  - rewrite Ht. by apply set_owner_where_frames_from.
  - rewrite Ht, set_owner_where_length. done.
  - intros f' p Hf' Hp. rewrite Ht in Hf'.
    apply set_owner_where_elem in Hf' as (f & Hf & Hid & Ho).
    rewrite Ho in Hp. case_decide as Hin; [done|].
    rewrite Hreg. rewrite lookup_delete_ne; [by eapply Hfo|].
    intros <-. apply Hin. by apply Hmine.
  - intros p sz fl f' Hp Hf'. rewrite Ht in Hf'.
    apply set_owner_where_elem in Hf' as (f & Hf & Hid & Ho).
    rewrite Hid, Ho. rewrite Hreg in Hp.
    apply lookup_delete_Some in Hp as [Hne Hp].
    specialize (Hpag p sz fl f Hp Hf). case_decide as Hin; [|done].
    apply Hmine in Hin; [|done]. rewrite Hin in Hpag.
    split; [|done]. intros Hfl. apply Hpag in Hfl. congruence.
  - intros p sz s e f1' f2' f3' Hp Hf1 Hf2 Hf3 Ho1 Ho3 Hle.
    rewrite Ht in Hf1, Hf2, Hf3. rewrite Hreg in Hp.
    apply lookup_delete_Some in Hp as [Hne Hp].
    apply set_owner_where_elem in Hf1 as (f1 & Hf1 & Hid1 & Hown1).
    apply set_owner_where_elem in Hf2 as (f2 & Hf2 & Hid2 & Hown2).
    apply set_owner_where_elem in Hf3 as (f3 & Hf3 & Hid3 & Hown3).
    rewrite Hown1 in Ho1. rewrite Hown3 in Ho3. rewrite Hown2.
    destruct (decide (frame_id f1 ∈ frames)); [congruence|].
    destruct (decide (frame_id f3 ∈ frames)); [congruence|].
    assert (Hold : frm_process_id f2 = Some p).
    { apply (Hint p sz s e f1 f2 f3); try done. lia. }
    case_decide as Hin; [|done].
    apply Hmine in Hin; [|done]. congruence.
Qed.

(** *** Segmentation keeps the invariant *)

Lemma overlaps_frame_id ps b f f' :
  frame_id f' = frame_id f → overlaps ps b f → overlaps ps b f'.
Proof. unfold overlaps. by intros ->. Qed.

(** Marking the pages of [c] leaves the frames of a block [b'] apart from
    [c] consecutive. *)
Lemma pages_apart ps c b' x1 x2 x3 :
  0 < ps →
  blk_end b' < blk_start c ∨ blk_end c < blk_start b' →
  blk_start b' / ps ≤ x1 → x3 ≤ blk_end b' / ps → x1 ≤ x2 ≤ x3 →
  ¬ (blk_start c / ps ≤ x1 ≤ blk_end c / ps) →
  ¬ (blk_start c / ps ≤ x3 ≤ blk_end c / ps) →
  ¬ (blk_start c / ps ≤ x2 ≤ blk_end c / ps).
Proof.
  intros Hps [Hap|Hap] H1 H3 H2 Hn1 Hn3 Hin.
  - pose proof (page_mono ps (blk_end b') (blk_start c) Hps ltac:(lia)). lia.
  - pose proof (page_mono ps (blk_end c) (blk_start b') Hps ltac:(lia)). lia.
Qed.

Lemma chain_after s pre b post t x :
  chain s (pre ++ b :: post) t → x ∈ post → blk_end b < blk_start x.
Proof.
  intros (m & _ & _ & _ & _ & Hpost)%chain_app Hx.
  destruct (chain_elem _ _ _ _ Hpost Hx). lia.
Qed.

(** The blocks before and after a first-fit allocation. *)
Lemma first_fit_blocks pid size mem c mem' s t :
  0 < size → chain s mem t → first_fit pid size mem = Some (c, mem') →
  ∃ a, a ∈ mem ∧ blk_process_id a = None ∧
    blk_process_id c = Some pid ∧
    blk_start c = blk_start a ∧ blk_end c ≤ blk_end a ∧
    c ∈ mem' ∧
    (∀ b, b ∈ mem' → b = c ∨ b ∈ mem ∨
       (blk_process_id b = None ∧ blk_start a ≤ blk_start b ∧
        blk_end b ≤ blk_end a)) ∧
    (∀ b, b ∈ mem → blk_process_id b ≠ None → b ∈ mem').
Proof.
  intros Hsize0 Hch H.
  apply first_fit_inv in H
    as (pre & a & post & -> & [Hfree Hle] & _ & Hcase).
  assert (Ha : a ∈ pre ++ a :: post)
    by (apply elem_of_app; right; apply list_elem_of_here).
  destruct (chain_elem _ _ _ _ Hch Ha) as (_ & _ & _ & Hsz).
  exists a. split; [done|]. split; [done|].
  destruct Hcase as [(Hsize & -> & ->)|(Hsize & -> & ->)]; simpl.
  - repeat split; try done; try lia.
    + apply elem_of_app; right; apply list_elem_of_here.
    + intros b [Hb|[->|Hb]%elem_of_cons]%elem_of_app.
      * right; left. apply elem_of_app. by left.
      * by left.
      * right; left. apply elem_of_app. right. by apply list_elem_of_further.
    + intros b [Hb|[->|Hb]%elem_of_cons]%elem_of_app Hown.
      * apply elem_of_app. by left.
      * done.
      * apply elem_of_app. right. by apply list_elem_of_further.
  - repeat split; try done; try lia.
    + apply elem_of_app; right; apply list_elem_of_here.
    + intros b [Hb|[->|[->|Hb]%elem_of_cons]%elem_of_cons]%elem_of_app.
      * right; left. apply elem_of_app. by left.
      * by left.
      * right; right. simpl. repeat split; lia.
      * right; left. apply elem_of_app. right. by apply list_elem_of_further.
    + intros b [Hb|[->|Hb]%elem_of_cons]%elem_of_app Hown.
      * apply elem_of_app. by left.
      * done.
      * apply elem_of_app. right. by do 2 apply list_elem_of_further.
Qed.

Lemma allocate_segmentation_state now pid size st c mem' :
  first_fit pid size (memory st) = Some (c, mem') →
  ∃ st', _allocate_process_segmentation now pid size st = (true, st') ∧
    memory_size st' = memory_size st ∧ page_size st' = page_size st ∧
    memory st' = mem' ∧
    page_table st' =
      set_owner_where
        (fun x => blk_start c / page_size st ≤ x ≤ blk_end c / page_size st)
        (Some pid) (page_table st) ∧
    allocated_processes st' =
      <[pid := SegmentationInfo size (blk_start c) (blk_end c)]>
        (allocated_processes st).
Proof.
  intros E. unfold _allocate_process_segmentation. rewrite E.
  eexists. split; [reflexivity|]. simpl.
  rewrite mark_frames_set_owner_where. done.
Qed.

Lemma inv_allocate_segmentation M ps st now pid size :
  0 < ps → 0 < size → Inv M ps st →
  allocated_processes st !! pid = None →
  Inv M ps (_allocate_process_segmentation now pid size st).2.
Proof.
  intros Hps Hsize HI Hfresh.
  destruct (first_fit pid size (memory st)) as [[c mem']|] eqn:E.
  2:{ unfold _allocate_process_segmentation. rewrite E.
      by apply inv_with_event. }
  destruct (allocate_segmentation_state now pid size st c mem' E)
    as (st' & -> & Hms' & Hps' & Hmem & Ht & Hreg).
  destruct HI as [Hms Hpsz Hwf Hlen Hch Hd Hbo Hfo Hpag Hpb Hun Hsf Hint].
  rewrite Hpsz in Ht. simpl.
  destruct (first_fit_blocks _ _ _ _ _ _ _ Hsize Hch E)
    as (a & Ha & Hafree & Hcown & Hcs & Hce & Hc & Hnew & Hkept).
  assert (Hnopid : ∀ b, b ∈ memory st → blk_process_id b ≠ Some pid).
  { intros b Hb Ho. destruct (Hbo b pid Hb Ho). congruence. }
  assert (Hnofr : ∀ f, f ∈ page_table st → frm_process_id f ≠ Some pid).
  { intros f Hf Ho. destruct (Hfo f pid Hf Ho). congruence. }
  assert (Hca : ∀ f, overlaps ps c f → overlaps ps a f).
  { intros f. apply overlaps_mono; [done | lia | done]. }
  assert (Hsome : ∀ p, is_Some (allocated_processes st !! p) →
                       is_Some (allocated_processes st' !! p)).
  { intros p Hp. rewrite Hreg. apply lookup_insert_is_Some.
    destruct (decide (pid = p)); [by left | by right]. }
  split; try congruence.
  - rewrite Ht. by apply set_owner_where_frames_from.
  - rewrite Ht, set_owner_where_length. done.
  - rewrite Hmem. by eapply first_fit_chain.
  - rewrite Hmem. by eapply first_fit_distinct.
  - (* block owners *)
    intros b p Hb Hp. rewrite Hmem in Hb.
    destruct (Hnew b Hb) as [->|[Hold|(Hfree & _)]].
    + rewrite Hreg. rewrite Hcown in Hp. injection Hp as <-.
      by rewrite lookup_insert_eq.
    + apply Hsome. by eapply Hbo.
    + congruence.
  - (* frame owners *)
    intros f' p Hf' Hp. rewrite Ht in Hf'.
    apply set_owner_where_elem in Hf' as (f & Hf & Hid & Ho).
    rewrite Ho in Hp. case_decide.
    + injection Hp as <-. rewrite Hreg. by rewrite lookup_insert_eq.
    + apply Hsome. by eapply Hfo.
  - (* paging: recorded frames *)
    intros p sz fl f' Hp Hf'. rewrite Ht in Hf'. rewrite Hreg in Hp.
    assert (Hne : pid ≠ p).
    { intros <-. by rewrite lookup_insert_eq in Hp. }
    rewrite lookup_insert_ne in Hp by done.
    apply set_owner_where_elem in Hf' as (f & Hf & Hid & Ho).
    rewrite Hid, Ho. specialize (Hpag p sz fl f Hp Hf).
    case_decide as Hin; [|done].
    split; [|congruence]. intros Hfl. apply Hpag in Hfl.
    specialize (Hpb p sz fl f a Hp Hf Hfl Ha (Hca f Hin)). congruence.
  - (* paging: blocks over the frames *)
    intros p sz fl f' b Hp Hf' Hfp Hb Hov.
    rewrite Ht in Hf'. rewrite Hreg in Hp. rewrite Hmem in Hb.
    assert (Hne : pid ≠ p).
    { intros <-. by rewrite lookup_insert_eq in Hp. }
    rewrite lookup_insert_ne in Hp by done.
    apply set_owner_where_elem in Hf' as (f & Hf & Hid & Ho).
    rewrite Ho in Hfp. case_decide as Hin; [congruence|].
    apply (overlaps_frame_id ps b f' f) in Hov; [|done].
    destruct (Hnew b Hb) as [->|[Hold|(Hfree & Hbs & Hbe)]].
    + done.
    + by eapply Hpb.
    + assert (Hoa : overlaps ps a f) by (by eapply overlaps_mono).
      specialize (Hpb p sz fl f a Hp Hf Hfp Ha Hoa). congruence.
  - (* segmentation: one block *)
    intros p sz s e b1 b2 Hp Hb1 Hb2 Hp1 Hp2.
    rewrite Hmem in Hb1, Hb2. rewrite Hreg in Hp.
    destruct (Hnew b1 Hb1) as [->|[Hold1|(Hfree1 & _)]]; [| |congruence];
      destruct (Hnew b2 Hb2) as [->|[Hold2|(Hfree2 & _)]]; try congruence.
    + exfalso. apply (Hnopid b2 Hold2). congruence.
    + exfalso. apply (Hnopid b1 Hold1). congruence.
    + assert (Hne : pid ≠ p).
      { intros <-. by apply (Hnopid b1 Hold1). }
      rewrite lookup_insert_ne in Hp by done. by eapply Hun.
  - (* segmentation: frames overlap the block *)
    intros p sz s e f' Hp Hf' Hfp. rewrite Ht in Hf'. rewrite Hreg in Hp.
    apply set_owner_where_elem in Hf' as (f & Hf & Hid & Ho).
    rewrite Ho in Hfp. case_decide as Hin.
    + injection Hfp as <-. exists c. rewrite Hmem.
      split; [done|]. split; [done|]. unfold overlaps. by rewrite Hid.
    + assert (Hne : pid ≠ p).
      { intros <-. by apply (Hnofr f Hf). }
      rewrite lookup_insert_ne in Hp by done.
      destruct (Hsf p sz s e f Hp Hf Hfp) as (b & Hb & Hbo' & Hov).
      exists b. rewrite Hmem. split; [apply Hkept; [done | congruence]|].
      split; [done|]. by eapply overlaps_frame_id.
  - (* segmentation: consecutive frames *)
    intros p sz s e f1' f2' f3' Hp Hf1 Hf2 Hf3 Ho1 Ho3 Hle.
    rewrite Ht in Hf1, Hf2, Hf3. rewrite Hreg in Hp.
    apply set_owner_where_elem in Hf1 as (f1 & Hf1 & Hid1 & Hown1).
    apply set_owner_where_elem in Hf2 as (f2 & Hf2 & Hid2 & Hown2).
    apply set_owner_where_elem in Hf3 as (f3 & Hf3 & Hid3 & Hown3).
    rewrite Hown1 in Ho1. rewrite Hown3 in Ho3. rewrite Hown2.
    rewrite Hid1, Hid2, Hid3 in Hle.
    destruct (decide (pid = p)) as [<-|Hne].
    + destruct (decide (_ ≤ frame_id f1 ≤ _)) as [Hin1|];
        [|by destruct (Hnofr f1 Hf1)].
      destruct (decide (_ ≤ frame_id f3 ≤ _)) as [Hin3|];
        [|by destruct (Hnofr f3 Hf3)].
      rewrite decide_True; [done | lia].
    + rewrite lookup_insert_ne in Hp by done.
      destruct (decide (_ ≤ frame_id f1 ≤ _)) as [|Hout1]; [congruence|].
      destruct (decide (_ ≤ frame_id f3 ≤ _)) as [|Hout3]; [congruence|].
      assert (Hold : frm_process_id f2 = Some p).
      { apply (Hint p sz s e f1 f2 f3); try done. }
      rewrite decide_False; [done|].
      destruct (Hsf p sz s e f1 Hp Hf1 Ho1) as (b1 & Hb1 & Hbo1 & Hov1).
      destruct (Hsf p sz s e f3 Hp Hf3 Ho3) as (b3 & Hb3 & Hbo3 & Hov3).
      assert (b1 = b3) as <-.
      { eapply chain_same_start; [done | done | done|]. by eapply Hun. }
      assert (Hap : blk_end b1 < blk_start c ∨ blk_end c < blk_start b1).
      { destruct (chain_apart _ _ _ _ _ Hch Hb1 Ha) as [->|[?|?]];
          [congruence | left; lia | right; lia]. }
      destruct Hov1 as [Hlo1 _]. destruct Hov3 as [_ Hhi3].
      by eapply (pages_apart ps c b1 (frame_id f1) (frame_id f2) (frame_id f3)).
Qed.

Lemma merge_from_id cur rest :
  distinct_after (blk_process_id cur) rest → merge_from cur rest = cur :: rest.
Proof.
  revert cur. induction rest as [|nxt r IH]; intros cur; simpl; [done|].
  intros [Hne Hr]. destruct (is_free cur && is_free nxt) eqn:E.
  - apply andb_true_iff in E as [E1 E2]. unfold is_free in *.
    destruct (blk_process_id cur), (blk_process_id nxt); done.
  - by rewrite IH.
Qed.

Lemma merge_free_blocks_id mem :
  distinct_neighbours mem → _merge_free_blocks mem = mem.
Proof. destruct mem as [|b r]; [done|]. apply merge_from_id. Qed.

Lemma merge_free_blocks_chain s mem t :
  chain s mem t → chain s (_merge_free_blocks mem) t.
Proof. destruct mem as [|b r]; [done|]. apply merge_from_chain. Qed.

Lemma merge_free_blocks_owned mem b p :
  blk_process_id b = Some p → (b ∈ _merge_free_blocks mem ↔ b ∈ mem).
Proof.
  intros Hp. destruct mem as [|a r]; [done|]. simpl. split; intros Hb.
  - by eapply merge_from_owned_in.
  - by eapply merge_from_owned_kept.
Qed.

Lemma merge_free_blocks_overlap ps mem s t b f :
  0 < ps → chain s mem t →
  b ∈ _merge_free_blocks mem → blk_process_id b = None → overlaps ps b f →
  ∃ a, a ∈ mem ∧ blk_process_id a = None ∧ overlaps ps a f.
Proof.
  destruct mem as [|a r]; [by intros ? ? ?%elem_of_nil|]. simpl.
  apply merge_from_free_overlap.
Qed.

Lemma release_merge_distinct pid mem :
  distinct_neighbours mem →
  distinct_neighbours (_merge_free_blocks (release_block pid mem).2).
Proof.
  destruct mem as [|a r]; [done|]. simpl. intros Hd.
  destruct (decide (blk_process_id a = Some pid)).
  - simpl. apply merge_from_distinct. simpl. by eapply distinct_after_free.
  - pose proof (release_block_owned_distinct pid r _ Hd) as H.
    destruct (release_block pid r) as [found r']. simpl in *.
    by apply merge_from_distinct.
Qed.

Lemma deallocate_segmentation_state now pid st size s e :
  allocated_processes st !! pid = Some (SegmentationInfo size s e) →
  ∃ st', deallocate_process now pid st = (true, st') ∧
    memory_size st' = memory_size st ∧ page_size st' = page_size st ∧
    memory st' = _merge_free_blocks (release_block pid (memory st)).2 ∧
    page_table st' =
      match (release_block pid (memory st)).1 with
      | Some b =>
          set_owner_where
            (fun x => blk_start b / page_size st ≤ x ≤ blk_end b / page_size st)
            None (page_table st)
      | None => page_table st
      end ∧
    allocated_processes st' = delete pid (allocated_processes st).
Proof.
  intros Hreg. unfold deallocate_process. rewrite Hreg.
  destruct (release_block pid (memory st)) as [[b|] mem]; simpl;
    (eexists; split; [reflexivity|]); simpl;
    rewrite ?mark_frames_set_owner_where; done.
Qed.

Lemma inv_deallocate_segmentation M ps st now pid size s e :
  0 < ps → Inv M ps st →
  allocated_processes st !! pid = Some (SegmentationInfo size s e) →
  Inv M ps (deallocate_process now pid st).2.
Proof.
  intros Hps HI Hpid.
  destruct (deallocate_segmentation_state now pid st size s e Hpid)
    as (st' & -> & Hms' & Hps' & Hmem & Ht & Hreg).
  destruct HI as [Hms Hpsz Hwf Hlen Hch Hd Hbo Hfo Hpag Hpb Hun Hsf Hint].
  rewrite Hpsz in Ht. simpl.
  assert (Hdel : ∀ p, p ≠ pid → is_Some (allocated_processes st !! p) →
                      is_Some (allocated_processes st' !! p)).
  { intros p Hne Hp. rewrite Hreg. by rewrite lookup_delete_ne. }
  destruct (release_block_cases pid (memory st))
    as [[Hnone Hrel]|(pre & b & post & Hsplit & Hpre & Hbown & Hrel)];
    rewrite Hrel in Hmem, Ht; simpl in Hmem, Ht.
  - (* no block of the process is left in the view *)
    rewrite merge_free_blocks_id in Hmem by done.
    assert (Hnofr : ∀ f, f ∈ page_table st → frm_process_id f ≠ Some pid).
    { intros f Hf Ho. destruct (Hsf pid size s e f Hpid Hf Ho) as (b & Hb & ? & _).
      by apply (Hnone b Hb). }
    split; try congruence.
    + intros b p Hb Hp. rewrite Hmem in Hb. apply Hdel; [|by eapply Hbo].
      intros ->. by apply (Hnone b Hb).
    + intros f p Hf Hp. rewrite Ht in Hf. apply Hdel; [|by eapply Hfo].
      intros ->. by apply (Hnofr f Hf).
    + intros p sz fl f Hp Hf. rewrite Hreg in Hp. rewrite Ht in Hf.
      apply lookup_delete_Some in Hp as [_ Hp]. by eapply Hpag.
    + intros p sz fl f b Hp Hf Hfp Hb Hov. rewrite Hreg in Hp.
      rewrite Ht in Hf. rewrite Hmem in Hb.
      apply lookup_delete_Some in Hp as [_ Hp]. by eapply Hpb.
    + intros p sz s' e' b1 b2 Hp Hb1 Hb2 Hp1 Hp2. rewrite Hreg in Hp.
      rewrite Hmem in Hb1, Hb2.
      apply lookup_delete_Some in Hp as [_ Hp]. by eapply Hun.
    + intros p sz s' e' f Hp Hf Hfp. rewrite Hreg in Hp. rewrite Ht in Hf.
      apply lookup_delete_Some in Hp as [_ Hp]. rewrite Hmem. by eapply Hsf.
    + intros p sz s' e' f1 f2 f3 Hp Hf1 Hf2 Hf3 Ho1 Ho3 Hle.
      rewrite Hreg in Hp. rewrite Ht in Hf1, Hf2, Hf3.
      apply lookup_delete_Some in Hp as [_ Hp]. by eapply (Hint p sz s' e' f1 f2 f3).
  - (* the block of the process is freed and merged *)
    set (b0 := set_owner b None) in *.
    set (mem1 := pre ++ b0 :: post) in *.
    assert (Hb : b ∈ memory st).
    { rewrite Hsplit. apply elem_of_app. right. apply list_elem_of_here. }
    assert (Hch1 : chain 0 mem1 M).
    { unfold mem1, b0. apply chain_set_owner. by rewrite <- Hsplit. }
    assert (Honly : ∀ x, x ∈ memory st → blk_process_id x = Some pid → x = b).
    { intros x Hx Hxo. apply (chain_same_start _ _ _ _ _ Hch Hx Hb).
      by eapply Hun. }
    assert (Hpost : ∀ x, x ∈ post → blk_process_id x ≠ Some pid).
    { intros x Hx Hxo. rewrite Hsplit in Hch.
      pose proof (chain_after _ _ _ _ _ _ Hch Hx) as Hafter.
      assert (Hxm : x ∈ memory st).
      { rewrite Hsplit. apply elem_of_app. right.
        by apply list_elem_of_further. }
      rewrite <- Hsplit in Hch.
      rewrite (Honly x Hxm Hxo) in Hafter.
      destruct (chain_elem _ _ _ _ Hch Hb). lia. }
    assert (Hmem1 : ∀ x, x ∈ mem1 →
              x = b0 ∨ (x ∈ memory st ∧ blk_process_id x ≠ Some pid)).
    { intros x [Hx|[->|Hx]%elem_of_cons]%elem_of_app.
      - right. split; [|by apply Hpre].
        rewrite Hsplit. apply elem_of_app. by left.
      - by left.
      - right. split; [|by apply Hpost].
        rewrite Hsplit. apply elem_of_app. right.
        by apply list_elem_of_further. }
    assert (Hkept : ∀ x, x ∈ memory st → x = b ∨ x ∈ mem1).
    { intros x Hx. rewrite Hsplit in Hx.
      apply elem_of_app in Hx as [Hx|[->|Hx]%elem_of_cons].
      - right. apply elem_of_app. by left.
      - by left.
      - right. apply elem_of_app. right. by apply list_elem_of_further. }
    assert (Hfr : ∀ f, f ∈ page_table st → frm_process_id f = Some pid →
                       overlaps ps b f).
    { intros f Hf Ho.
      destruct (Hsf pid size s e f Hpid Hf Ho) as (x & Hx & Hxo & Hov).
      by rewrite <- (Honly x Hx Hxo). }
    split; try congruence.
    + rewrite Ht. by apply set_owner_where_frames_from.
    + rewrite Ht, set_owner_where_length. done.
    + rewrite Hmem. by apply merge_free_blocks_chain.
    + rewrite Hmem.
      replace mem1 with (release_block pid (memory st)).2 by (by rewrite Hrel).
      by apply release_merge_distinct.
    + (* block owners *)
      intros x p Hx Hp. rewrite Hmem in Hx.
      apply (proj1 (merge_free_blocks_owned _ _ _ Hp)) in Hx.
      destruct (Hmem1 x Hx) as [->|[Hxm Hne]]; [done|].
      apply Hdel; [congruence | by eapply Hbo].
    + (* frame owners *)
      intros f' p Hf' Hp. rewrite Ht in Hf'.
      apply set_owner_where_elem in Hf' as (f & Hf & Hid & Ho).
      rewrite Ho in Hp. case_decide as Hin; [done|].
      apply Hdel; [|by eapply Hfo]. intros ->. by apply Hin, (Hfr f).
    + (* paging: recorded frames *)
      intros p sz fl f' Hp Hf'. rewrite Ht in Hf'. rewrite Hreg in Hp.
      apply lookup_delete_Some in Hp as [Hne Hp].
      apply set_owner_where_elem in Hf' as (f & Hf & Hid & Ho).
      rewrite Hid, Ho. specialize (Hpag p sz fl f Hp Hf).
      case_decide as Hin; [|done].
      split; [|done]. intros Hfl. apply Hpag in Hfl.
      specialize (Hpb p sz fl f b Hp Hf Hfl Hb Hin). congruence.
    + (* paging: blocks over the frames *)
      intros p sz fl f' x Hp Hf' Hfp Hx Hov.
      rewrite Ht in Hf'. rewrite Hreg in Hp. rewrite Hmem in Hx.
      apply lookup_delete_Some in Hp as [Hne Hp].
      apply set_owner_where_elem in Hf' as (f & Hf & Hid & Ho).
      rewrite Ho in Hfp. case_decide as Hin; [done|].
      apply (overlaps_frame_id ps x f' f) in Hov; [|done].
      destruct (blk_process_id x) as [q|] eqn:Hxo.
      * apply (proj1 (merge_free_blocks_owned _ _ _ Hxo)) in Hx.
        destruct (Hmem1 x Hx) as [->|[Hxm _]]; [done|].
        rewrite <- Hxo. by eapply Hpb.
      * exfalso.
        destruct (merge_free_blocks_overlap ps mem1 0 M x f Hps Hch1 Hx Hxo Hov)
          as (a & Ha & Hao & Hova).
        destruct (Hmem1 a Ha) as [->|[Ham _]]; [done|].
        specialize (Hpb p sz fl f a Hp Hf Hfp Ham Hova). congruence.
    + (* segmentation: one block *)
      intros p sz s' e' b1 b2 Hp Hb1 Hb2 Hp1 Hp2.
      rewrite Hmem in Hb1, Hb2. rewrite Hreg in Hp.
      apply lookup_delete_Some in Hp as [Hne Hp].
      apply (proj1 (merge_free_blocks_owned _ _ _ Hp1)) in Hb1.
      apply (proj1 (merge_free_blocks_owned _ _ _ Hp2)) in Hb2.
      destruct (Hmem1 b1 Hb1) as [->|[Hb1m _]]; [done|].
      destruct (Hmem1 b2 Hb2) as [->|[Hb2m _]]; [done|].
      by eapply Hun.
    + (* segmentation: frames overlap the block *)
      intros p sz s' e' f' Hp Hf' Hfp. rewrite Ht in Hf'. rewrite Hreg in Hp.
      apply lookup_delete_Some in Hp as [Hne Hp].
      apply set_owner_where_elem in Hf' as (f & Hf & Hid & Ho).
      rewrite Ho in Hfp. case_decide as Hin; [done|].
      destruct (Hsf p sz s' e' f Hp Hf Hfp) as (x & Hx & Hxo & Hov).
      exists x. rewrite Hmem. split; [|split; [done|]].
      * apply (proj2 (merge_free_blocks_owned _ _ _ Hxo)).
        destruct (Hkept x Hx) as [->|?]; [congruence | done].
      * by eapply overlaps_frame_id.
    + (* segmentation: consecutive frames *)
      intros p sz s' e' f1' f2' f3' Hp Hf1 Hf2 Hf3 Ho1 Ho3 Hle.
      rewrite Ht in Hf1, Hf2, Hf3. rewrite Hreg in Hp.
      apply lookup_delete_Some in Hp as [Hne Hp].
      apply set_owner_where_elem in Hf1 as (f1 & Hf1 & Hid1 & Hown1).
      apply set_owner_where_elem in Hf2 as (f2 & Hf2 & Hid2 & Hown2).
      apply set_owner_where_elem in Hf3 as (f3 & Hf3 & Hid3 & Hown3).
      rewrite Hown1 in Ho1. rewrite Hown3 in Ho3. rewrite Hown2.
      rewrite Hid1, Hid2, Hid3 in Hle.
      destruct (decide (_ ≤ frame_id f1 ≤ _)) as [|Hout1]; [congruence|].
      destruct (decide (_ ≤ frame_id f3 ≤ _)) as [|Hout3]; [congruence|].
      assert (Hold : frm_process_id f2 = Some p).
      { apply (Hint p sz s' e' f1 f2 f3); try done. }
      rewrite decide_False; [done|].
      destruct (Hsf p sz s' e' f1 Hp Hf1 Ho1) as (b1 & Hb1 & Hbo1 & Hov1).
      destruct (Hsf p sz s' e' f3 Hp Hf3 Ho3) as (b3 & Hb3 & Hbo3 & Hov3).
      assert (b1 = b3) as <-.
      { apply (chain_same_start _ _ _ _ _ Hch Hb1 Hb3). by eapply Hun. }
      assert (Hap : blk_end b1 < blk_start b0 ∨ blk_end b0 < blk_start b1).
      { destruct (chain_apart _ _ _ _ _ Hch Hb1 Hb) as [->|[?|?]];
          [congruence | by left | by right]. }
      destruct Hov1 as [Hlo1 _]. destruct Hov3 as [_ Hhi3].
      by eapply (pages_apart ps b0 b1 (frame_id f1) (frame_id f2) (frame_id f3)).
Qed.

(** ** Reachable states satisfy the invariant *)

Lemma init_inr M ps st : __init__ M ps = inr st → st = engine M ps ∧ ps ≠ 0.
Proof.
  unfold __init__. destruct (Z.eqb_spec ps 0); [discriminate|].
  intros [= <-]. done.
Qed.

Lemma inv_allocate M ps st now pid size method :
  0 < ps → 0 < M → 0 < size → Inv M ps st →
  allocated_processes st !! pid = None →
  Inv M ps (allocate_process now pid size method st).2.
Proof.
  intros. destruct method; simpl.
  - by apply inv_allocate_paging.
  - by apply inv_allocate_segmentation.
Qed.

Lemma inv_deallocate M ps st now pid :
  0 < ps → 0 < M → Inv M ps st → Inv M ps (deallocate_process now pid st).2.
Proof.
  intros Hps HM HI.
  destruct (allocated_processes st !! pid) as [[sz fl|sz s e]|] eqn:E.
  - by eapply inv_deallocate_paging.
  - by eapply inv_deallocate_segmentation.
  - unfold deallocate_process. by rewrite E.
Qed.

Lemma reachable_inv M ps st :
  valid_configuration M ps → reachable M ps st → Inv M ps st.
Proof.
  intros Hv Hr. pose proof Hv as (HM & Hps & _).
  induction Hr as [st Hinit|st now pid size method _ IH Hsize Hfresh
                  |st now pid _ IH].
  - apply init_inr in Hinit as [-> _]. by apply inv_init.
  - by apply inv_allocate.
  - by apply inv_deallocate.
Qed.

(** *** From the invariant to the wording of the specification *)

Lemma chain_ordered s l t : chain s l t → ordered_by_address l.
Proof.
  revert s. induction l as [|a r IH]; intros s H i j b b' Hi Hj Hij;
    [done|].
  destruct H as (Hs & Hsz & Hpos & Hr).
  destruct j as [|j]; [lia|]. simpl in Hj.
  destruct i as [|i].
  - injection Hi as <-. apply list_elem_of_lookup_2 in Hj.
    destruct (chain_elem _ _ _ _ Hr Hj). lia.
  - simpl in Hi. eapply (IH _ Hr i j); [done | done | lia].
Qed.

Lemma chain_adjacent s l t i b b' :
  chain s l t → l !! i = Some b → l !! S i = Some b' →
  blk_end b + 1 = blk_start b'.
Proof.
  revert s i. induction l as [|a r IH]; intros s i H Hi Hj; [done|].
  destruct H as (Hs & Hsz & Hpos & Hr). destruct i as [|i].
  - injection Hi as <-. destruct r as [|c r']; [done|].
    injection Hj as <-. by destruct Hr as (-> & _).
  - simpl in Hi, Hj. by eapply IH.
Qed.

Lemma chain_last s l t :
  chain s l t → l ≠ [] → ∃ b, last l = Some b ∧ blk_end b + 1 = t.
Proof.
  revert s. induction l as [|a r IH]; intros s H Hne; [done|].
  destruct H as (Hs & Hsz & Hpos & Hr). destruct r as [|c r'].
  - exists a. split; [done | exact Hr].
  - destruct (IH _ Hr) as (b & Hb & He); [done|]. by exists b.
Qed.

Lemma chain_covers s l t a :
  chain s l t →
  (s ≤ a < t ↔ ∃ b, b ∈ l ∧ blk_start b ≤ a ≤ blk_end b).
Proof.
  revert s. induction l as [|c r IH]; intros s H.
  - simpl in H. split; [lia|]. by intros (b & ?%elem_of_nil & _).
  - destruct H as (Hs & Hsz & Hpos & Hr). specialize (IH _ Hr).
    pose proof (chain_le _ _ _ Hr). split.
    + intros Ha. destruct (decide (a ≤ blk_end c)).
      * exists c. split; [apply list_elem_of_here | lia].
      * destruct (proj1 IH ltac:(lia)) as (b & Hb & ?).
        exists b. split; [by apply list_elem_of_further | done].
    + intros (b & [->|Hb]%elem_of_cons & Hab); [lia|].
      assert (blk_end c + 1 ≤ a < t) by (apply IH; by exists b). lia.
Qed.

Lemma chain_sum s l t : chain s l t → sum_Z (blk_size <$> l) = t - s.
Proof.
  revert s. unfold sum_Z.
  induction l as [|c r IH]; intros s H; [simpl in *; lia|].
  destruct H as (Hs & Hsz & Hpos & Hr).
  rewrite fmap_cons. cbn [foldr]. rewrite (IH _ Hr). lia.
Qed.

Lemma distinct_after_lookup o l i b b' :
  distinct_after o l → l !! i = Some b → l !! S i = Some b' →
  blk_process_id b ≠ blk_process_id b'.
Proof.
  revert o i. induction l as [|a r IH]; intros o i H Hi Hj; [done|].
  destruct H as [_ Hr]. destruct i as [|i].
  - injection Hi as <-. destruct r as [|c r']; [done|].
    injection Hj as <-. by destruct Hr.
  - simpl in Hi, Hj. by eapply IH.
Qed.

Lemma distinct_neighbours_lookup l :
  distinct_neighbours l → no_adjacent_same_owner l.
Proof.
  intros H i b b' Hi Hj. destruct l as [|a r]; [done|]. simpl in H.
  destruct i as [|i].
  - injection Hi as <-. destruct r as [|c r']; [done|].
    injection Hj as <-. by destruct H.
  - simpl in Hi, Hj. by eapply distinct_after_lookup.
Qed.

(** C2: in every state reached from a valid construction by allocations
    of positive size under pids that are not registered and by
    deallocations, of either method in any order, the block view is ordered
    by address, starts at 0, ends at [memory_size - 1], has no gap, covers
    exactly the addresses of [[0, memory_size)], sums to [memory_size], and
    no two consecutive blocks have the same owner. *)
Theorem blocks_invariant M ps st :
  valid_configuration M ps → reachable M ps st →
  let blocks := get_memory_snapshot st in
  ordered_by_address blocks ∧
  gapless M blocks ∧
  covers_exactly M blocks ∧
  sum_Z (blk_size <$> blocks) = M ∧
  no_adjacent_same_owner blocks.
Proof.
  intros Hv Hr. pose proof Hv as (HM & Hps & _).
  destruct (reachable_inv _ _ _ Hv Hr) as [_ _ _ _ Hch Hd _ _ _ _ _ _ _].
  unfold get_memory_snapshot. cbv zeta.
  assert (Hne : memory st ≠ []).
  { intros E. rewrite E in Hch. simpl in Hch. lia. }
  split; [by eapply chain_ordered|]. split; [|split; [|split]].
  - split; [|split].
    + destruct (memory st) as [|b r]; [done|]. exists b.
      split; [done|]. by destruct Hch.
    + destruct (chain_last _ _ _ Hch Hne) as (b & Hb & He).
      exists b. split; [done | lia].
    + intros i b b'. by eapply chain_adjacent.
  - intros a. by apply chain_covers.
  - rewrite (chain_sum _ _ _ Hch). lia.
  - by apply distinct_neighbours_lookup.
Qed.

Lemma blocks_invariant_witness :
  sum_Z (blk_size <$> get_memory_snapshot
           (deallocate_process 2%Q 1
              (allocate_process 1%Q 2 10 PAGING
                 (allocate_process 0%Q 1 15 SEGMENTATION (engine 100 10)).2).2).2)
  = 100.
Proof.
  refine (proj1 (proj2 (proj2 (proj2 (blocks_invariant 100 10 _ _ _))))).
  - unfold valid_configuration. split; [lia|]. split; [lia|]. reflexivity.
  - apply reachable_deallocate. apply reachable_allocate.
    + apply reachable_allocate.
      * apply reachable_init. reflexivity.
      * lia.
      * reflexivity.
    + lia.
    + vm_compute. reflexivity.
Defined.

(** ** Registry and ownership *)

Lemma claim_frames_ids k pid t :
  frame_id <$> claim_frames k pid t = frame_id <$> t.
Proof.
  revert k. induction t as [|f r IH]; intros k; [done|]. simpl.
  destruct (frm_process_id f), k; simpl; by rewrite IH.
Qed.

Lemma mark_frames_ids lo hi o t :
  frame_id <$> mark_frames lo hi o t = frame_id <$> t.
Proof.
  unfold mark_frames. rewrite <- list_fmap_compose.
  apply list_fmap_ext. intros i f _. simpl.
  by destruct (_ && _).
Qed.

Lemma release_frames_ids fl t :
  frame_id <$> release_frames fl t = frame_id <$> t.
Proof.
  rewrite release_frames_set_owner_where. unfold set_owner_where.
  rewrite <- list_fmap_compose. apply list_fmap_ext. intros i f _. simpl.
  by case_decide.
Qed.

Lemma allocate_frame_ids now pid size method st :
  frame_id <$> page_table (allocate_process now pid size method st).2
  = frame_id <$> page_table st.
Proof.
  destruct method; simpl.
  - unfold _allocate_process_paging. destruct (_ <? _); simpl; [done|].
    apply claim_frames_ids.
  - unfold _allocate_process_segmentation.
    destruct (first_fit _ _ _) as [[c mem]|]; simpl; [|done].
    apply mark_frames_ids.
Qed.

Lemma deallocate_frame_ids now pid st :
  frame_id <$> page_table (deallocate_process now pid st).2
  = frame_id <$> page_table st.
Proof.
  unfold deallocate_process.
  destruct (allocated_processes st !! pid) as [[sz fl|sz s e]|]; [| |done].
  - simpl. apply release_frames_ids.
  - destruct (release_block pid (memory st)) as [[b|] mem]; simpl; [|done].
    apply mark_frames_ids.
Qed.

Lemma reachable_recorded_frames M ps st :
  reachable M ps st → recorded_frames_exist st.
Proof.
  induction 1 as [st Hinit|st now pid size method _ IH Hsize Hfresh
                 |st now pid _ IH]; intros p sz fl x Hp Hx.
  - apply init_inr in Hinit as [-> _]. simpl in Hp.
    by rewrite lookup_empty in Hp.
  - rewrite allocate_frame_ids. destruct method; simpl in Hp.
    + unfold _allocate_process_paging in Hp.
      destruct (_ <? _); simpl in Hp; [by eapply IH|].
      destruct (decide (pid = p)) as [<-|Hne].
      * rewrite lookup_insert_eq in Hp. injection Hp as <- <-.
        destruct (slice_to_is_take (pages_needed_for (page_size st) size)
          (filter (fun f => frame_is_free f = true) (page_table st)))
          as [j Hj].
        rewrite Hj in Hx. apply list_elem_of_fmap in Hx as (f & -> & Hf).
        apply elem_of_take in Hf as (i & Hf & _).
        apply list_elem_of_lookup_2, list_elem_of_filter in Hf as [_ Hf].
        apply list_elem_of_fmap. by exists f.
      * rewrite lookup_insert_ne in Hp by done. by eapply IH.
    + unfold _allocate_process_segmentation in Hp.
      destruct (first_fit _ _ _) as [[c mem]|]; simpl in Hp; [|by eapply IH].
      destruct (decide (pid = p)) as [<-|Hne].
      * by rewrite lookup_insert_eq in Hp.
      * rewrite lookup_insert_ne in Hp by done. by eapply IH.
  - rewrite deallocate_frame_ids. unfold deallocate_process in Hp.
    destruct (allocated_processes st !! pid) as [info|] eqn:E;
      [|by eapply IH].
    assert (Hdel : delete pid (allocated_processes st) !! p
                   = Some (PagingInfo sz fl)).
    { destruct info; [done|].
      by destruct (release_block pid (memory st)). }
    apply lookup_delete_Some in Hdel as [_ Hdel]. by eapply IH.
Qed.

Lemma seg_reachable_reachable M ps st :
  seg_reachable M ps st → reachable M ps st.
Proof.
  induction 1; [by apply reachable_init | by apply reachable_allocate
               | by apply reachable_deallocate].
Qed.

Lemma release_block_other pid mem b p :
  b ∈ mem → blk_process_id b = Some p → p ≠ pid →
  b ∈ (release_block pid mem).2.
Proof.
  intros Hb Hp Hne.
  destruct (release_block_cases pid mem)
    as [[_ ->]|(pre & b0 & post & -> & _ & Hb0 & ->)]; [done|]. simpl.
  apply elem_of_app in Hb as [Hb|[->|Hb]%elem_of_cons].
  - apply elem_of_app. by left.
  - congruence.
  - apply elem_of_app. right. by apply list_elem_of_further.
Qed.

Lemma seg_reachable_recorded M ps st :
  valid_configuration M ps → seg_reachable M ps st → segments_recorded st.
Proof.
  intros Hv Hr. pose proof Hv as (HM & Hps & _).
  induction Hr as [st Hinit|st now pid size Hr IH Hsize Hfresh
                  |st now pid Hr IH]; intros p info Hp.
  - apply init_inr in Hinit as [-> _]. simpl in Hp.
    by rewrite lookup_empty in Hp.
  - pose proof (reachable_inv _ _ _ Hv (seg_reachable_reachable _ _ _ Hr))
      as [_ _ _ _ Hch _ _ _ _ _ _ _ _].
    simpl in *. unfold _allocate_process_segmentation in *.
    destruct (first_fit pid size (memory st)) as [[c mem']|] eqn:E;
      simpl in *; [|by apply IH].
    destruct (first_fit_blocks _ _ _ _ _ _ _ Hsize Hch E)
      as (a & _ & _ & Hcown & _ & _ & Hc & _ & Hkept).
    destruct (decide (pid = p)) as [<-|Hne].
    + rewrite lookup_insert_eq in Hp. injection Hp as <-.
      by exists size, c.
    + rewrite lookup_insert_ne in Hp by done.
      destruct (IH p info Hp) as (sz & b & -> & Hb & Hbo).
      exists sz, b. split; [done|]. split; [|done].
      apply Hkept; [done | congruence].
  - unfold deallocate_process in *.
    destruct (allocated_processes st !! pid) as [pinfo|] eqn:E;
      [|by apply IH].
    destruct (IH pid pinfo E) as (sz0 & b0 & -> & _ & _).
    destruct (release_block pid (memory st)) as [found mem1] eqn:Er.
    simpl in *. apply lookup_delete_Some in Hp as [Hne Hp].
    destruct (IH p info Hp) as (sz & b & -> & Hb & Hbo).
    exists sz, b. split; [done|]. split; [|done].
    apply (proj2 (merge_free_blocks_owned _ _ _ Hbo)).
    replace mem1 with (release_block pid (memory st)).2 by (by rewrite Er).
    by eapply release_block_other.
Qed.

(** C3, against the claim: after a segment of 15 addresses for pid 1 and a
    paging allocation for pid 2, with pages of 10, the registry keeps
    addresses 0..14 for pid 1 while the rebuilt block view gives it 0..19. *)
Lemma mixed_methods_widen_segment :
  let st1 := (allocate_process 0%Q 1 15 SEGMENTATION (engine 100 10)).2 in
  let st2 := (allocate_process 1%Q 2 10 PAGING st1).2 in
  reachable 100 10 st2 ∧
  allocated_processes st2 !! 1 = Some (SegmentationInfo 15 0 14) ∧
  memory st2 = [mkBlock 0 19 20 (Some 1); mkBlock 20 29 10 (Some 2);
                mkBlock 30 99 70 None] ∧
  ¬ (∀ a, 0 ≤ a ≤ 14 ↔
       ∃ b, b ∈ memory st2 ∧ blk_process_id b = Some 1 ∧
            blk_start b ≤ a ≤ blk_end b).
Proof.
  cbv zeta. split; [|split; [|split]].
  - apply reachable_allocate; [|lia | vm_compute; reflexivity].
    apply reachable_allocate; [|lia | reflexivity].
    apply reachable_init. reflexivity.
  - vm_compute. reflexivity.
  - vm_compute. reflexivity.
  - intros H. specialize (H 17). destruct H as [_ H].
    assert (0 ≤ 17 ≤ 14) as [_ ?]; [|lia].
    apply H. exists (mkBlock 0 19 20 (Some 1)).
    split; [|split; [reflexivity | simpl; lia]].
    replace (memory _) with [mkBlock 0 19 20 (Some 1); mkBlock 20 29 10 (Some 2);
                mkBlock 30 99 70 None] by (vm_compute; reflexivity).
    apply list_elem_of_here.
Qed.

(** C3, as the code has it.  In the states reached from a valid
    construction by validated commands: the frame ids recorded for a paging
    process are exactly the ids of the frames it owns, whatever the mix of
    methods; and, when every allocation is by segmentation, the address
    range recorded for a process is exactly the set of addresses of the
    blocks it owns. *)
Theorem registry_matches_ownership M ps st :
  valid_configuration M ps →
  (reachable M ps st →
     ∀ pid size frames,
       allocated_processes st !! pid = Some (PagingInfo size frames) →
       ∀ x, x ∈ frames ↔
            ∃ f, f ∈ page_table st ∧ frame_id f = x ∧
                 frm_process_id f = Some pid) ∧
  (seg_reachable M ps st →
     ∀ pid size s e,
       allocated_processes st !! pid = Some (SegmentationInfo size s e) →
       ∀ a, s ≤ a ≤ e ↔
            ∃ b, b ∈ memory st ∧ blk_process_id b = Some pid ∧
                 blk_start b ≤ a ≤ blk_end b).
Proof.
  intros Hv. split.
  - intros Hr pid size frames Hp x.
    pose proof (reachable_inv _ _ _ Hv Hr) as [_ _ _ _ _ _ _ _ Hpag _ _ _ _].
    pose proof (reachable_recorded_frames _ _ _ Hr) as Hex. split.
    + intros Hx. pose proof (Hex pid size frames x Hp Hx) as Hf.
      apply list_elem_of_fmap in Hf as (f & -> & Hf).
      exists f. split; [done|].
      split; [done|]. by apply (Hpag pid size frames f Hp Hf).
    + intros (f & Hf & <- & Ho). by apply (Hpag pid size frames f Hp Hf).
  - intros Hr pid size s e Hp a.
    pose proof (reachable_inv _ _ _ Hv (seg_reachable_reachable _ _ _ Hr))
      as [_ _ _ _ Hch _ _ _ _ _ Hun _ _].
    destruct (seg_reachable_recorded _ _ _ Hv Hr pid _ Hp)
      as (sz & b & [= -> -> ->] & Hb & Hbo).
    split.
    + intros Ha. by exists b.
    + intros (b' & Hb' & Hbo' & Ha).
      assert (b' = b) as ->; [|done].
      apply (chain_same_start _ _ _ _ _ Hch Hb' Hb). by eapply Hun.
Qed.

Lemma registry_matches_ownership_witness :
  ∃ f, f ∈ page_table (allocate_process 0%Q 2 40 PAGING (engine 256 16)).2 ∧
    frame_id f = 1 ∧ frm_process_id f = Some 2.
Proof.
  refine (proj1 (proj1 (registry_matches_ownership 256 16
            (allocate_process 0%Q 2 40 PAGING (engine 256 16)).2 _) _
            2 40 [0; 1; 2] _ 1) _).
  - unfold valid_configuration. split; [lia|]. split; [lia|]. reflexivity.
  - apply reachable_allocate; [|lia | reflexivity].
    apply reachable_init. reflexivity.
  - vm_compute. reflexivity.
  - apply list_elem_of_further, list_elem_of_here.
Defined.

(** ** Allocate, then deallocate *)

Lemma single_free_block M l :
  0 < M → chain 0 l M → distinct_neighbours l →
  (∀ b, b ∈ l → blk_process_id b = None) →
  l = [mkBlock 0 (M - 1) M None].
Proof.
  intros HM Hch Hd Hfree. destruct l as [|b [|c r]].
  - simpl in Hch. lia.
  - destruct Hch as (Hs & Hsz & _ & He). simpl in He.
    pose proof (Hfree b (list_elem_of_here _ _)) as Ho.
    destruct b as [s e sz o]. simpl in *. subst. f_equal. f_equal; lia.
  - destruct Hd as [Hne _]. exfalso. apply Hne.
    rewrite (Hfree b), (Hfree c); [done|..].
    + apply list_elem_of_further, list_elem_of_here.
    + apply list_elem_of_here.
Qed.

(** With an empty registry a reachable engine is as it was built. *)
Lemma idle_state M ps st :
  0 < M → Inv M ps st → allocated_processes st = ∅ →
  memory st = [mkBlock 0 (M - 1) M None] ∧
  (∀ f, f ∈ page_table st → frm_process_id f = None).
Proof.
  intros HM [_ _ _ _ Hch Hd Hbo Hfo _ _ _ _ _] Hempty. split.
  - apply single_free_block; try done.
    intros b Hb. destruct (blk_process_id b) as [p|] eqn:E; [|done].
    destruct (Hbo b p Hb E) as [? Hp]. by rewrite Hempty, lookup_empty in Hp.
  - intros f Hf. destruct (frm_process_id f) as [p|] eqn:E; [|done].
    destruct (Hfo f p Hf E) as [? Hp]. by rewrite Hempty, lookup_empty in Hp.
Qed.

Lemma rebuild_all_free M ps t :
  0 < ps → 0 < M → frames_from ps 0 t → Z.of_nat (length t) * ps = M →
  (∀ f, f ∈ t → frm_process_id f = None) →
  _update_memory_from_page_table t = [mkBlock 0 (M - 1) M None].
Proof.
  intros Hps HM Hwf Hlen Hfree.
  assert (Hne : t ≠ []) by (intros ->; simpl in Hlen; lia).
  destruct (rebuild_spec ps t Hps Hwf Hne) as (Hch & Hd & Hruns & _).
  rewrite Hlen in Hch. apply single_free_block; try done.
  intros b Hb. destruct (is_run_owner _ _ _ (Hruns b Hb)) as (f & Hf & <-).
  by apply Hfree.
Qed.

Lemma set_owner_where_undo (P : Z → Prop) `{!∀ x, Decision (P x)} o t :
  (∀ f, f ∈ t → frm_process_id f = None) →
  set_owner_where P None (set_owner_where P o t) = t.
Proof.
  intros Hfree. unfold set_owner_where. rewrite <- list_fmap_compose.
  rewrite <- (list_fmap_id t) at 2. apply list_fmap_ext. intros i f Hf.
  apply list_elem_of_lookup_2, Hfree in Hf.
  destruct f as [k o' s e]. simpl in *. subst o'.
  destruct (decide (P k)) as [Hk|Hk]; simpl.
  - by rewrite decide_True.
  - by rewrite decide_False.
Qed.

(** C7: on a reachable engine with no process allocated, whenever an
    allocation by either method succeeds, the deallocation of the same pid
    that follows succeeds and leaves the block view as the single free
    block over [[0, memory_size)]. *)
Theorem allocate_deallocate_roundtrip M ps st now now' pid size method st1 :
  valid_configuration M ps → reachable M ps st →
  allocated_processes st = ∅ →
  allocate_process now pid size method st = (true, st1) →
  ∃ st2, deallocate_process now' pid st1 = (true, st2) ∧
    get_memory_snapshot st2 = [mkBlock 0 (M - 1) M None].
Proof.
  intros Hv Hr Hempty Halloc. pose proof Hv as (HM & Hps & _).
  pose proof (reachable_inv _ _ _ Hv Hr) as HI.
  destruct (idle_state _ _ _ HM HI Hempty) as [Hmem Hfree].
  destruct HI as [Hms Hpsz Hwf Hlen _ _ _ _ _ _ _ _ _].
  unfold get_memory_snapshot. destruct method; simpl in Halloc.
  - rewrite <- Hpsz in Hwf.
    apply paging_success in Halloc
      as (chosen & _ & _ & Ht & Hreg & _ & _ & Hps1 & _); [|done].
    rewrite Hpsz in Hwf.
    fold (set_owner_where (fun x => x ∈ chosen) (Some pid) (page_table st))
      in Ht.
    destruct (deallocate_paging_state now' pid st1 size chosen)
      as (st2 & Hd & _ & _ & Ht2 & Hmem2 & _).
    { rewrite Hreg. apply lookup_insert_eq. }
    exists st2. split; [done|].
    rewrite Hmem2, Ht2, Ht, set_owner_where_undo by done.
    by apply (rebuild_all_free M ps).
  - unfold _allocate_process_segmentation in Halloc. rewrite Hmem in Halloc.
    simpl in Halloc.
    destruct (size <=? M); simpl in Halloc; [|discriminate].
    destruct (Z.eqb_spec M size) as [Heq|Hne]; injection Halloc as Hst1.
    + assert (Hreg1 : allocated_processes st1 !! pid
                      = Some (SegmentationInfo size 0 (M - 1)))
        by (rewrite <- Hst1; apply lookup_insert_eq).
      destruct (deallocate_segmentation_state now' pid st1 _ _ _ Hreg1)
        as (st2 & Hd & _ & _ & Hmem2 & _).
      exists st2. split; [exact Hd|]. rewrite Hmem2, <- Hst1. simpl.
      by rewrite decide_True.
    + assert (Hreg1 : allocated_processes st1 !! pid
                      = Some (SegmentationInfo size 0 (0 + size - 1)))
        by (rewrite <- Hst1; apply lookup_insert_eq).
      destruct (deallocate_segmentation_state now' pid st1 _ _ _ Hreg1)
        as (st2 & Hd & _ & _ & Hmem2 & _).
      exists st2. split; [exact Hd|]. rewrite Hmem2, <- Hst1. simpl.
      rewrite decide_True by done. simpl. unfold absorb. simpl.
      do 2 f_equal. lia.
Qed.

Lemma allocate_deallocate_roundtrip_witness :
  ∃ st2,
    deallocate_process 1%Q 1
      (allocate_process 0%Q 1 30 SEGMENTATION (engine 100 10)).2 = (true, st2) ∧
    get_memory_snapshot st2 = [mkBlock 0 99 100 None].
Proof.
  refine (allocate_deallocate_roundtrip 100 10 (engine 100 10) 0%Q 1%Q 1 30
            SEGMENTATION _ _ _ _ _).
  - unfold valid_configuration. split; [lia|]. split; [lia|]. reflexivity.
  - apply reachable_init. reflexivity.
  - reflexivity.
  - vm_compute. reflexivity.
Defined.

(** ** Scenarios of the specification, run on the model *)

Example scenario_A :
  let r := allocate_process 0%Q 1 32 PAGING (engine 256 16) in
  r.1 = true ∧
  allocated_processes r.2 !! 1 = Some (PagingInfo 32 [0; 1]) ∧
  internal_fragmentation (get_memory_stats r.2) = 0.
Proof. vm_compute. repeat split. Qed.

Example scenario_B :
  let st1 := (allocate_process 0%Q 1 32 PAGING (engine 256 16)).2 in
  let r := allocate_process 1%Q 2 40 PAGING st1 in
  r.1 = true ∧
  allocated_processes r.2 !! 2 = Some (PagingInfo 40 [2; 3; 4]) ∧
  internal_fragmentation (get_memory_stats r.2) = 8.
Proof. vm_compute. repeat split. Qed.

Example scenario_C :
  let st1 := (allocate_process 0%Q 1 30 SEGMENTATION (engine 100 10)).2 in
  let r := allocate_process 1%Q 2 80 SEGMENTATION st1 in
  r.1 = false ∧
  get_memory_snapshot r.2 = [mkBlock 0 29 30 (Some 1); mkBlock 30 99 70 None] ∧
  process_count (get_memory_stats r.2) = 1.
Proof. vm_compute. repeat split. Qed.

Example scenario_D :
  let st1 := (allocate_process 0%Q 1 40 SEGMENTATION (engine 100 10)).2 in
  let st2 := (allocate_process 1%Q 2 60 SEGMENTATION st1).2 in
  let r := deallocate_process 2%Q 1 st2 in
  r.1 = true ∧
  get_memory_snapshot r.2 = [mkBlock 0 39 40 None; mkBlock 40 99 60 (Some 2)].
Proof. vm_compute. repeat split. Qed.

(** Scenario E as the engine runs it when it is handed a registered pid:
    the second call claims frame 4 and replaces the registry entry, and
    frames 0 to 3 keep pid 1 as their owner. *)
Example scenario_E :
  let st1 := (allocate_process 0%Q 1 50 PAGING (engine 256 16)).2 in
  let r := allocate_process 1%Q 1 10 PAGING st1 in
  allocated_processes st1 !! 1 = Some (PagingInfo 50 [0; 1; 2; 3]) ∧
  r.1 = true ∧
  allocated_processes r.2 !! 1 = Some (PagingInfo 10 [4]) ∧
  take 6 (frm_process_id <$> get_page_table_snapshot r.2) =
    [Some 1; Some 1; Some 1; Some 1; Some 1; None].
Proof. vm_compute. repeat split. Qed.

(** A negative page count takes all but the last free frames, as the
    slice [free_frames[:pages_needed]] does. *)
Example negative_size_paging :
  let r := allocate_process 0%Q 1 (-20) PAGING (engine 64 16) in
  r.1 = true ∧
  allocated_processes r.2 !! 1 = Some (PagingInfo (-20) [0; 1; 2]).
Proof. vm_compute. repeat split. Qed.

(** The log keeps the ten most recent events and shows five. *)
Example event_log_bounded :
  let step st := (allocate_process 0%Q 1 1000 PAGING st).2 in
  let st := Nat.iter 12 step (engine 64 16) in
  length (recent_events st) = 10%nat ∧ length (get_recent_events st) = 5%nat.
Proof. vm_compute. repeat split. Qed.
